(** * Onboarding helpers of the channel plugins

    A shallow embedding of [src/channels/plugins/onboarding/helpers.ts] and
    the properties its specification states about it.

    - JavaScript strings are sequences of UTF-16 code units ([list N]).
    - An allowlist entry is a [string | number]; numbers stay abstract
      behind the [Number] interface (only [String(v)] and truthiness are
      ever used by the module).
    - The configuration snapshot is a tree of records whose named fields
      are the ones the module reads or writes; all remaining properties of
      an object travel in one opaque field.  Object spreads are record
      copies, computed keys are [gmap] inserts.
    - The asynchronous functions are programs over the capabilities they
      await (prompter, directory resolver, account prompt), run against a
      script of the answers the environment gives. *)

From Stdlib Require Import NArith Ascii String.
From stdpp Require Import base option list gmap pretty.

Local Open Scope N_scope.
Local Open Scope list_scope.

(** ** JavaScript strings *)

Abbreviation jsstring := (list N).

(** A string literal of the source (all of them are ASCII). *)
Definition lit (s : string) : jsstring :=
  (fun a => N_of_ascii a) <$> list_ascii_of_string s.

Module JS.

(** ECMAScript [WhiteSpace] and [LineTerminator] code points, the ones
    [String.prototype.trim] strips. *)
Definition isWhiteSpace (c : N) : bool :=
  (c =? 0x0009) || (c =? 0x000A) || (c =? 0x000B) || (c =? 0x000C)
  || (c =? 0x000D) || (c =? 0x0020) || (c =? 0x00A0) || (c =? 0x1680)
  || ((0x2000 <=? c) && (c <=? 0x200A))
  || (c =? 0x2028) || (c =? 0x2029) || (c =? 0x202F) || (c =? 0x205F)
  || (c =? 0x3000) || (c =? 0xFEFF).

Fixpoint dropWhile {A} (p : A -> bool) (l : list A) : list A :=
  match l with
  | [] => []
  | x :: l' => if p x then dropWhile p l' else l
  end.

Definition trimStart (s : jsstring) : jsstring := dropWhile isWhiteSpace s.
Definition trimEnd (s : jsstring) : jsstring :=
  reverse (dropWhile isWhiteSpace (reverse s)).

(** [s.trim()] *)
Definition trim (s : jsstring) : jsstring := trimEnd (trimStart s).

(** [Boolean(s)] for a string: the empty string is the only falsy one. *)
Definition truthy (s : jsstring) : bool :=
  match s with [] => false | _ => true end.

(** [arr.filter(Boolean)] on an array of strings. *)
Definition filterBoolean (l : list jsstring) : list jsstring :=
  filter (fun s => truthy s) l.

(** [arr.includes(x)] on an array of strings. *)
Definition includes (l : list jsstring) (x : jsstring) : bool :=
  bool_decide (x ∈ l).

(** [arr.join(sep)] on an array of strings. *)
Fixpoint join (sep : jsstring) (l : list jsstring) : jsstring :=
  match l with
  | [] => []
  | [s] => s
  | s :: l' => s ++ sep ++ join sep l'
  end.

(** [new Set(iterable)] followed by [[...set]]: a [Set] iterates in
    insertion order, and [add] of a value already present changes
    nothing.  [seen] holds the members, oldest first. *)
Definition Set_add (seen : list jsstring) (x : jsstring) : list jsstring :=
  if includes seen x then seen else seen ++ [x].

Definition Set_from (l : list jsstring) : list jsstring :=
  foldl Set_add [] l.

(** [s.split(re)] for a regular expression [re = /[...]+/] that matches
    the non-empty runs of the code units satisfying [sep].  [cur] is the
    segment being read, newest unit first; [inrun] tells that the
    previous unit belonged to a match. *)
Fixpoint splitRuns (sep : N -> bool) (inrun : bool) (cur : jsstring)
         (s : jsstring) : list jsstring :=
  match s with
  | [] => [reverse cur]
  | c :: s' =>
      if sep c
      then if inrun
           then splitRuns sep true cur s'
           else reverse cur :: splitRuns sep true [] s'
      else splitRuns sep false (c :: cur) s'
  end.

Definition split (sep : N -> bool) (s : jsstring) : list jsstring :=
  splitRuns sep false [] s.

End JS.

(** ** Entries: [string | number] *)

(** What the module needs of a JavaScript number: [String(n)] and
    [Boolean(n)]. *)
Class Number := {
  number : Type;
  Number_toString : number -> jsstring;
  Number_toBoolean : number -> bool;
}.

Inductive Entry `{Number} : Type :=
| Str (s : jsstring)
| Num (n : number).

(** [String(v)] *)
Definition ToString `{Number} (v : Entry) : jsstring :=
  match v with
  | Str s => s
  | Num n => Number_toString n
  end.

(** [Boolean(v)] *)
Definition ToBoolean `{Number} (v : Entry) : bool :=
  match v with
  | Str s => JS.truthy s
  | Num n => Number_toBoolean n
  end.

(** [.map((v) => String(v).trim()).filter(Boolean)], the pipeline that
    [addWildcardAllowFrom], [mergeAllowFromEntries] and
    [normalizeAllowFromEntries] all start with. *)
Definition trimmedEntries `{Number} (l : list Entry) : list jsstring :=
  JS.filterBoolean ((fun v => JS.trim (ToString v)) <$> l).

(** ** The pure helpers *)

Definition WILDCARD : jsstring := lit "*".

(** [allowFrom ?? []] and [current ?? []]: [None] stands for [null] and
    [undefined]. *)
Definition orEmpty {A} (o : option (list A)) : list A := default [] o.

Definition addWildcardAllowFrom `{Number} (allowFrom : option (list Entry))
  : list jsstring :=
  let next := trimmedEntries (orEmpty allowFrom) in
  if negb (JS.includes next WILDCARD) then next ++ [WILDCARD] else next.

Definition mergeAllowFromEntries `{Number} (current : option (list Entry))
           (additions : list Entry) : list jsstring :=
  let merged := trimmedEntries (orEmpty current ++ additions) in
  JS.Set_from merged.

(** The code units of the character class in [/[\n,;]+/g]. *)
Definition isEntrySeparator (c : N) : bool :=
  (c =? 0x0A) || (c =? 0x2C) || (c =? 0x3B).

Definition splitOnboardingEntries (raw : jsstring) : list jsstring :=
  JS.filterBoolean (JS.trim <$> JS.split isEntrySeparator raw).

(** The callback of the second [map] in [normalizeAllowFromEntries].
    [normalizeEntry] is optional and answers [string | null | undefined];
    [None] stands for the two non-strings. *)
Definition normalizeOne (normalizeEntry : option (jsstring -> option jsstring))
           (entry : jsstring) : jsstring :=
  if bool_decide (entry = WILDCARD) then WILDCARD
  else match normalizeEntry with
       | None => entry
       | Some f =>
           match f entry with
           | Some value => JS.trim value
           | None => []
           end
       end.

Definition normalizeAllowFromEntries `{Number} (entries : list Entry)
           (normalizeEntry : option (jsstring -> option jsstring)) : list jsstring :=
  let normalized :=
    JS.filterBoolean (normalizeOne normalizeEntry <$> trimmedEntries entries) in
  JS.Set_from normalized.

(** ** Account identifiers *)

(** [s?.trim()] on an optional string, and the truthiness of the result. *)
Definition optTrim (s : option jsstring) : option jsstring := JS.trim <$> s.
Definition optTruthy (s : option jsstring) : bool :=
  match s with Some v => JS.truthy v | None => false end.

(** [normalizeAccountId] is imported from [routing/session-key.js]; the
    functions below take it as an argument. *)
Definition resolveOnboardingAccountId (normalizeAccountId : jsstring -> jsstring)
           (accountId : option jsstring) (defaultAccountId : jsstring) : jsstring :=
  match accountId with
  | Some a => if JS.truthy (JS.trim a) then normalizeAccountId a else defaultAccountId
  | None => defaultAccountId
  end.

(** ** Programs over awaited capabilities *)

(** A program performs requests [e : E X] and continues with the answer. *)
Inductive Prog (E : Type -> Type) (A : Type) : Type :=
| Ret (a : A)
| Vis {X : Type} (e : E X) (k : X -> Prog E A).
Arguments Ret {E A} a.
Arguments Vis {E A X} e k.

Fixpoint bind {E A B} (p : Prog E A) (f : A -> Prog E B) : Prog E B :=
  match p with
  | Ret a => f a
  | Vis e k => Vis e (fun x => bind (k x) f)
  end.

(** [await e] *)
Definition await {E X} (e : E X) : Prog E X := Vis e Ret.

#[global] Instance Prog_ret {E} : MRet (Prog E) := fun A a => Ret a.
#[global] Instance Prog_bind {E} : MBind (Prog E) := fun A B f p => bind p f.

(** The environment answers a request from its state, or has no answer
    (yet): the awaited promise stays pending. *)
Definition Handler (E : Type -> Type) (W : Type) : Type :=
  forall X, E X -> W -> option (X * W).

Inductive Outcome (A W : Type) : Type :=
| Returned (a : A) (w : W)
| Awaiting (w : W)
| OutOfFuel.
Arguments Returned {A W} a w.
Arguments Awaiting {A W} w.
Arguments OutOfFuel {A W}.

Fixpoint run {E W A} (h : Handler E W) (p : Prog E A) (w : W) : Outcome A W :=
  match p with
  | Ret a => Returned a w
  | Vis e k =>
      match h _ e w with
      | Some (x, w') => run h (k x) w'
      | None => Awaiting w
      end
  end.

(** [while (true) { body }], where the body answers [None] for [continue]
    and [Some r] for [return r]. *)
Fixpoint whileTrue {E W A} (h : Handler E W) (body : Prog E (option A))
         (fuel : nat) (w : W) : Outcome A W :=
  match fuel with
  | O => OutOfFuel
  | S fuel' =>
      match run h body w with
      | Returned (Some r) w' => Returned r w'
      | Returned None w' => whileTrue h body fuel' w'
      | Awaiting w' => Awaiting w'
      | OutOfFuel => OutOfFuel
      end
  end.

(** ** The allowlist resolution loop *)

(** How a promise settles; [R] is the type of rejection reasons. *)
Inductive Settled (R A : Type) : Type :=
| Fulfilled (a : A)
| Rejected (reason : R).
Arguments Fulfilled {R A} a.
Arguments Rejected {R A} reason.

(** [promise.catch(() => null)] *)
Definition catchNull {R A} (s : Settled R A) : option A :=
  match s with
  | Fulfilled a => Some a
  | Rejected _ => None
  end.

Module AllowFromResolution.
(** [id?: string | null]: [None] is [undefined] or [null]. *)
Record t := { input : jsstring; resolved : bool; id : option jsstring }.
End AllowFromResolution.

Module TextOptions.
(** The argument of [prompter.text]; [validate] answers an error message
    or [undefined]. *)
Record t := {
  message : jsstring;
  placeholder : jsstring;
  initialValue : option jsstring;
  validate : option jsstring -> option jsstring;
}.
End TextOptions.

(** The capabilities [promptResolvedAllowFrom] awaits. *)
Inductive WizardE {R : Type} : Type -> Type :=
| prompter_text (o : TextOptions.t) : WizardE jsstring
| prompter_note (message title : jsstring) : WizardE unit
| resolveEntries (token : jsstring) (entries : list jsstring)
  : WizardE (Settled R (list AllowFromResolution.t)).
Arguments WizardE R : clear implicits.

(** The [params] of [promptResolvedAllowFrom] that are data or pure
    callbacks. *)
Record Params `{Number} := {
  existing : list Entry;
  token : option jsstring;
  message : jsstring;
  placeholder : jsstring;
  label : jsstring;
  parseInputs : jsstring -> list jsstring;
  parseId : jsstring -> option jsstring;
  invalidWithoutTokenNote : jsstring;
}.

(** [(res) => !res.resolved || !res.id] *)
Definition isUnresolved (res : AllowFromResolution.t) : bool :=
  negb (AllowFromResolution.resolved res)
  || negb (optTruthy (AllowFromResolution.id res)).

(** [res.id as string] *)
Definition idAsString (res : AllowFromResolution.t) : jsstring :=
  default [] (AllowFromResolution.id res).

Definition textOptions `{Number} (params : Params) : TextOptions.t :=
  {| TextOptions.message := message params;
     TextOptions.placeholder := placeholder params;
     TextOptions.initialValue :=
       match head (existing params) with
       | Some v => if ToBoolean v then Some (ToString v) else None
       | None => None
       end;
     TextOptions.validate := fun value =>
       if JS.truthy (JS.trim (default [] value)) then None
       else Some (lit "Required") |}.

(** One iteration of the [while (true)] body: [None] is [continue],
    [Some ids] is [return ids]. *)
Definition round `{Number} {R} (params : Params)
  : Prog (WizardE R) (option (list jsstring)) :=
  entry ← await (prompter_text (textOptions params));
  let parts := parseInputs params entry in
  if negb (optTruthy (token params)) then
    let ids :=
      default [] <$> filter (fun o => optTruthy o) (parseId params <$> parts) in
    if negb (length ids =? length parts)%nat then
      await (prompter_note (invalidWithoutTokenNote params) (label params));;
      mret None
    else mret (Some (mergeAllowFromEntries (Some (existing params)) (Str <$> ids)))
  else
    settled ← await (resolveEntries (default [] (token params)) parts);
    match catchNull settled with
    | None =>
        await (prompter_note (lit "Failed to resolve usernames. Try again.")
                 (label params));;
        mret None
    | Some results =>
        let unresolved := filter (fun res => isUnresolved res) results in
        if (0 <? length unresolved)%nat then
          await (prompter_note
                   (lit "Could not resolve: "
                    ++ JS.join (lit ", ") (AllowFromResolution.input <$> unresolved))
                   (label params));;
          mret None
        else
          let ids := idAsString <$> results in
          mret (Some (mergeAllowFromEntries (Some (existing params)) (Str <$> ids)))
    end.

(** The environment of a run: what the user will type, how the directory
    calls will settle, and the capability calls made so far, oldest
    first. *)
Record World {R : Type} := {
  texts : list jsstring;
  resolutions : list (Settled R (list AllowFromResolution.t));
  calls : list (sigT (WizardE R));
}.
Arguments World R : clear implicits.

Definition logged {R X} (e : WizardE R X) (w : World R) : list (sigT (WizardE R)) :=
  calls w ++ [existT X e].

Definition wizard {R} : Handler (WizardE R) (World R) :=
  fun X e =>
    match e in WizardE _ X return World R -> option (X * World R) with
    | prompter_text o => fun w =>
        match texts w with
        | [] => None
        | entry :: rest =>
            Some (entry, {| texts := rest; resolutions := resolutions w;
                            calls := logged (prompter_text o) w |})
        end
    | prompter_note m t => fun w =>
        Some (tt, {| texts := texts w; resolutions := resolutions w;
                     calls := logged (prompter_note m t) w |})
    | resolveEntries tok entries => fun w =>
        match resolutions w with
        | [] => None
        | settled :: rest =>
            Some (settled, {| texts := texts w; resolutions := rest;
                              calls := logged (resolveEntries tok entries) w |})
        end
    end.

(** The notices shown and the directory calls made, read off the log. *)
Definition notesOf {R} (log : list (sigT (WizardE R))) : list (jsstring * jsstring) :=
  omap (fun c => match projT2 c with
                 | prompter_note m t => Some (m, t)
                 | _ => None
                 end) log.

Definition resolveCallsOf {R} (log : list (sigT (WizardE R)))
  : list (jsstring * list jsstring) :=
  omap (fun c => match projT2 c with
                 | resolveEntries tok entries => Some (tok, entries)
                 | _ => None
                 end) log.

Definition textCallsOf {R} (log : list (sigT (WizardE R))) : list TextOptions.t :=
  omap (fun c => match projT2 c with
                 | prompter_text o => Some o
                 | _ => None
                 end) log.

(** Every iteration awaits [prompter.text] first, so one more iteration
    than there are typed lines always settles the run. *)
Definition promptResolvedAllowFrom `{Number} {R} (params : Params) (w : World R)
  : Outcome (list jsstring) (World R) :=
  whileTrue wizard (round params) (S (length (texts w))) w.

(** ** The interactive account resolution *)

Module PromptAccountIdParams.
(** What [promptAccountId] is given, the prompter capability apart. *)
Record t {Cfg : Type} := {
  cfg : Cfg;
  label : jsstring;
  currentId : jsstring;
  listAccountIds : Cfg -> list jsstring;
  defaultAccountId : jsstring;
}.
Arguments t Cfg : clear implicits.
End PromptAccountIdParams.

(** [promptAccountId] of [plugin-sdk/onboarding.js], as a capability. *)
Inductive AccountE {Cfg : Type} : Type -> Type :=
| promptAccountIdSdk (params : PromptAccountIdParams.t Cfg) : AccountE jsstring.
Arguments AccountE Cfg : clear implicits.

Definition promptAccountId {Cfg} (params : PromptAccountIdParams.t Cfg)
  : Prog (AccountE Cfg) jsstring :=
  await (promptAccountIdSdk params).

Module ConfigureParams.
Record t {Cfg : Type} := {
  cfg : Cfg;
  label : jsstring;
  accountOverride : option jsstring;
  shouldPromptAccountIds : bool;
  listAccountIds : Cfg -> list jsstring;
  defaultAccountId : jsstring;
}.
Arguments t Cfg : clear implicits.
End ConfigureParams.

Definition resolveAccountIdForConfigure {Cfg}
           (normalizeAccountId : jsstring -> jsstring)
           (params : ConfigureParams.t Cfg) : Prog (AccountE Cfg) jsstring :=
  let override := optTrim (ConfigureParams.accountOverride params) in
  let accountId :=
    match override with
    | Some o =>
        if JS.truthy o then normalizeAccountId o
        else ConfigureParams.defaultAccountId params
    | None => ConfigureParams.defaultAccountId params
    end in
  if ConfigureParams.shouldPromptAccountIds params && negb (optTruthy override)
  then
    promptAccountId
      {| PromptAccountIdParams.cfg := ConfigureParams.cfg params;
         PromptAccountIdParams.label := ConfigureParams.label params;
         PromptAccountIdParams.currentId := accountId;
         PromptAccountIdParams.listAccountIds := ConfigureParams.listAccountIds params;
         PromptAccountIdParams.defaultAccountId :=
           ConfigureParams.defaultAccountId params |}
  else mret accountId.

(** The account prompt answers from a script of identifiers and counts
    as called whenever it is reached. *)
Definition accountPrompt {Cfg} : Handler (AccountE Cfg) (list jsstring * nat) :=
  fun X e =>
    match e in AccountE _ X return list jsstring * nat -> option (X * (list jsstring * nat)) with
    | promptAccountIdSdk _ => fun w =>
        match w.1 with
        | [] => None
        | a :: rest => Some (a, (rest, S w.2))
        end
    end.

(** ** The configuration snapshot *)

(** [V] is the type of the property values the module never looks at. *)
Record AccountConfig `{Number} {V : Type} := {
  account_allowFrom : option (list Entry);
  account_rest : gmap jsstring V;
}.
Arguments AccountConfig {_} V.

Record ChannelConfig `{Number} {V : Type} := {
  channel_allowFrom : option (list Entry);
  channel_dmPolicy : option jsstring;
  channel_accounts : option (gmap jsstring (AccountConfig V));
  channel_rest : gmap jsstring V;
}.
Arguments ChannelConfig {_} V.

Record OpenClawConfig `{Number} {V : Type} := {
  channels : option (gmap jsstring (ChannelConfig V));
  config_rest : gmap jsstring V;
}.
Arguments OpenClawConfig {_} V.

(** [{...o}] of an object that may be [undefined]: no property at all. *)
Definition spreadAccount `{Number} {V} (o : option (AccountConfig V)) : AccountConfig V :=
  default {| account_allowFrom := None; account_rest := ∅ |} o.

Definition spreadChannel `{Number} {V} (o : option (ChannelConfig V)) : ChannelConfig V :=
  default {| channel_allowFrom := None; channel_dmPolicy := None;
             channel_accounts := None; channel_rest := ∅ |} o.

Definition spreadMap {A} (o : option (gmap jsstring A)) : gmap jsstring A :=
  default ∅ o.

(** [cfg.channels?.[channel]] *)
Definition channelOf `{Number} {V} (cfg : OpenClawConfig V) (channel : jsstring)
  : option (ChannelConfig V) :=
  channels cfg ≫= fun m => m !! channel.

(** [ch?.allowFrom] and [ch?.accounts] *)
Definition allowFromOf `{Number} {V} (ch : option (ChannelConfig V))
  : option (list Entry) :=
  ch ≫= fun c => channel_allowFrom c.

Definition accountsOf `{Number} {V} (ch : option (ChannelConfig V))
  : option (gmap jsstring (AccountConfig V)) :=
  ch ≫= fun c => channel_accounts c.

(** [ch?.accounts?.[accountId]] *)
Definition accountOf `{Number} {V} (ch : option (ChannelConfig V)) (accountId : jsstring)
  : option (AccountConfig V) :=
  accountsOf ch ≫= fun m => m !! accountId.

Definition setAccountAllowFromForChannel `{Number} {V}
           (DEFAULT_ACCOUNT_ID : jsstring)
           (cfg : OpenClawConfig V) (channel accountId : jsstring)
           (allowFrom : list jsstring) : OpenClawConfig V :=
  let ch := channelOf cfg channel in
  if bool_decide (accountId = DEFAULT_ACCOUNT_ID) then
    {| channels := Some (<[channel :=
         {| channel_allowFrom := Some (Str <$> allowFrom);
            channel_dmPolicy := channel_dmPolicy (spreadChannel ch);
            channel_accounts := channel_accounts (spreadChannel ch);
            channel_rest := channel_rest (spreadChannel ch) |}]>
         (spreadMap (channels cfg)));
       config_rest := config_rest cfg |}
  else
    {| channels := Some (<[channel :=
         {| channel_allowFrom := channel_allowFrom (spreadChannel ch);
            channel_dmPolicy := channel_dmPolicy (spreadChannel ch);
            channel_accounts := Some (<[accountId :=
              {| account_allowFrom := Some (Str <$> allowFrom);
                 account_rest := account_rest (spreadAccount (accountOf ch accountId)) |}]>
              (spreadMap (accountsOf ch)));
            channel_rest := channel_rest (spreadChannel ch) |}]>
         (spreadMap (channels cfg)));
       config_rest := config_rest cfg |}.

Definition OPEN : jsstring := lit "open".

Definition setChannelDmPolicyWithAllowFrom `{Number} {V}
           (cfg : OpenClawConfig V) (channel : jsstring) (dmPolicy : jsstring)
  : OpenClawConfig V :=
  let ch := channelOf cfg channel in
  let allowFrom :=
    if bool_decide (dmPolicy = OPEN)
    then Some (addWildcardAllowFrom (allowFromOf ch))
    else None in
  {| channels := Some (<[channel :=
       {| channel_allowFrom :=
            match allowFrom with
            | Some allowFrom => Some (Str <$> allowFrom)
            | None => channel_allowFrom (spreadChannel ch)
            end;
          channel_dmPolicy := Some dmPolicy;
          channel_accounts := channel_accounts (spreadChannel ch);
          channel_rest := channel_rest (spreadChannel ch) |}]>
       (spreadMap (channels cfg)));
     config_rest := config_rest cfg |}.

(** ** Instances used by the examples *)

(** Integers as numbers: decimal [String(n)], zero is falsy. *)
Definition IntegerNumber : Number :=
  {| number := Z;
     Number_toString := fun z => lit (pretty z);
     Number_toBoolean := fun z => negb (z =? 0)%Z |}.

(** Mixed textual and numeric entries. *)
Definition mixedExisting : list (@Entry IntegerNumber) :=
  [Str (lit " a "); Num (H := IntegerNumber) 42%Z].

Definition mixedAdditions : list (@Entry IntegerNumber) :=
  [Str (lit "a"); Str (lit "  "); Num (H := IntegerNumber) 42%Z].

Definition normalizeExample : list (@Entry IntegerNumber) :=
  [Str (lit " +15555550123 "); Str (lit "*"); Str (lit "+15555550123");
   Str (lit "bad")].

(** [(value) => (value.startsWith("+1") ? value : null)] *)
Definition startsWithPlusOne (value : jsstring) : option jsstring :=
  match value with
  | 0x2B :: 0x31 :: _ => Some value
  | _ => None
  end.

(** The callbacks and values of the module's test suite. *)
Definition splitComma (value : jsstring) : list jsstring :=
  JS.filterBoolean (JS.trim <$> JS.split (fun c => c =? 0x2C) value).

(** [(value) => /^\d+$/.test(value.trim()) ? value.trim() : null] *)
Definition digitsOnly (value : jsstring) : option jsstring :=
  let t := JS.trim value in
  if JS.truthy t && forallb (fun c => (0x30 <=? c) && (c <=? 0x39)) t
  then Some t else None.

Definition localExample : @Params IntegerNumber :=
  {| existing := [Str (lit "111")];
     token := Some [];
     message := lit "msg";
     placeholder := lit "placeholder";
     label := lit "allowlist";
     parseInputs := splitComma;
     parseId := digitsOnly;
     invalidWithoutTokenNote := lit "ids only" |}.

Definition directoryExample : @Params IntegerNumber :=
  {| existing := [];
     token := Some (lit "xoxb-test");
     message := lit "msg";
     placeholder := lit "placeholder";
     label := lit "allowlist";
     parseInputs := splitComma;
     parseId := fun _ => None;
     invalidWithoutTokenNote := lit "ids only" |}.

Definition resolution (input : string) (resolved : bool) (id : option string)
  : AllowFromResolution.t :=
  {| AllowFromResolution.input := lit input;
     AllowFromResolution.resolved := resolved;
     AllowFromResolution.id := lit <$> id |}.

Definition scripted (typed : list string)
           (settled : list (Settled string (list AllowFromResolution.t)))
  : World string :=
  {| texts := lit <$> typed; resolutions := settled; calls := [] |}.

(** A normalizer in the manner of [normalizeAccountId]: trim, lower-case
    the ASCII letters, put a dash for a space. *)
Definition dashedLowerCase (value : jsstring) : jsstring :=
  (fun c => if (0x41 <=? c) && (c <=? 0x5A) then c + 0x20
            else if c =? 0x20 then 0x2D else c) <$> JS.trim value.

Definition signalExample : @OpenClawConfig IntegerNumber bool :=
  {| channels := Some {[ lit "signal" :=
       {| channel_allowFrom := Some [Str (lit "default-old")];
          channel_dmPolicy := Some (lit "pairing");
          channel_accounts := Some {[ lit "alt" :=
            {| account_allowFrom := Some [Str (lit "alt-old")];
               account_rest := {[ lit "enabled" := true ]} |} ]};
          channel_rest := {[ lit "enabled" := true ]} |} ]};
     config_rest := ∅ |}.

Definition duplicatesExample : @OpenClawConfig IntegerNumber bool :=
  {| channels := Some {[ lit "signal" :=
       {| channel_allowFrom := Some [Str (lit "a"); Str (lit " a")];
          channel_dmPolicy := Some (lit "pairing");
          channel_accounts := None;
          channel_rest := ∅ |} ]};
     config_rest := ∅ |}.

(** ** Vocabulary of the specification *)

(** A trimmed text: neither its first nor its last code unit is white
    space. *)
Definition trimmed (s : jsstring) : Prop :=
  (forall c, head s = Some c -> JS.isWhiteSpace c = false)
  /\ (forall c, last s = Some c -> JS.isWhiteSpace c = false).

(** Duplicates removed, every value standing where it first occurs. *)
Fixpoint firstOccurrences (l : list jsstring) : list jsstring :=
  match l with
  | [] => []
  | x :: l' => x :: filter (fun y => y <> x) (firstOccurrences l')
  end.

(** A text laid out as segments between separator runs:
    [seg0 run1 seg1 ... runN segN]. *)
Fixpoint interleave (seg0 : jsstring) (rest : list (jsstring * jsstring)) : jsstring :=
  match rest with
  | [] => seg0
  | (sepRun, seg) :: rest' => seg0 ++ sepRun ++ interleave seg rest'
  end.

(** The tokens of a sequence of segments: trimmed, the empty ones
    dropped. *)
Definition tokens (l : list jsstring) : list jsstring :=
  JS.filterBoolean (JS.trim <$> l).

Definition separatorFree (seg : jsstring) : Prop :=
  Forall (fun c => isEntrySeparator c = false) seg.

Definition separatorRun (sepRun : jsstring) : Prop :=
  sepRun <> [] /\ Forall (fun c => isEntrySeparator c = true) sepRun.

(** An acceptable resolution result: resolved is true and the resolved
    identifier is present and non-empty. *)
Definition acceptable (res : AllowFromResolution.t) : bool :=
  AllowFromResolution.resolved res
  && match AllowFromResolution.id res with
     | Some i => bool_decide (i <> [])
     | None => false
     end.

(** The results of a round that are not acceptable, in the order the
    directory answered them. *)
Definition unacceptable (results : list AllowFromResolution.t)
  : list AllowFromResolution.t :=
  filter (fun res => acceptable res = false) results.

(** A directory call that makes its round fail: it rejects, or some result
    is not acceptable. *)
Definition failedResolution {R} (s : Settled R (list AllowFromResolution.t)) : Prop :=
  match s with
  | Rejected _ => True
  | Fulfilled results => unacceptable results <> []
  end.

(** Local mode: every candidate parses to a non-empty identifier. *)
Definition parsesAll `{Number} (params : Params) (parts : list jsstring) : Prop :=
  Forall (fun part => optTruthy (parseId params part) = true) parts.

Definition parsedIds `{Number} (params : Params) (parts : list jsstring)
  : list jsstring :=
  (fun part => default [] (parseId params part)) <$> parts.

(** The notice of a directory round with unacceptable results. *)
Definition couldNotResolve (results : list AllowFromResolution.t) : jsstring :=
  lit "Could not resolve: "
  ++ JS.join (lit ", ") (AllowFromResolution.input <$> unacceptable results).

Definition FAILED_TO_RESOLVE : jsstring :=
  lit "Failed to resolve usernames. Try again.".

(** The world a round leaves behind: the unread script and the log
    extended by the round's calls. *)
Definition after {R} (w : World R) (ts : list jsstring)
           (rs : list (Settled R (list AllowFromResolution.t)))
           (new : list (sigT (WizardE R))) : World R :=
  {| texts := ts; resolutions := rs; calls := calls w ++ new |}.

Definition call {R X} (e : WizardE R X) : sigT (WizardE R) := existT X e.

(** The notice a failed directory round shows. *)
Definition failureNotice {R} (s : Settled R (list AllowFromResolution.t)) : jsstring :=
  match s with
  | Rejected _ => FAILED_TO_RESOLVE
  | Fulfilled results => couldNotResolve results
  end.

(** The capability calls of one round, by the way the round ends. *)
Definition localRetryCalls `{Number} {R} (params : Params) : list (sigT (WizardE R)) :=
  [call (prompter_text (textOptions params));
   call (prompter_note (invalidWithoutTokenNote params) (label params))].

Definition localReturnCalls `{Number} {R} (params : Params) : list (sigT (WizardE R)) :=
  [call (prompter_text (textOptions params))].

Definition directoryRetryCalls `{Number} {R} (params : Params) (tok : jsstring)
           (entry : jsstring) (s : Settled R (list AllowFromResolution.t))
  : list (sigT (WizardE R)) :=
  [call (prompter_text (textOptions params));
   call (resolveEntries tok (parseInputs params entry));
   call (prompter_note (failureNotice s) (label params))].

Definition directoryReturnCalls `{Number} {R} (params : Params) (tok : jsstring)
           (entry : jsstring) : list (sigT (WizardE R)) :=
  [call (prompter_text (textOptions params));
   call (resolveEntries tok (parseInputs params entry))].

(** Local mode is the mode of a falsy token: [undefined], [null] or the
    empty string. *)
Definition localMode `{Number} (params : Params) : Prop :=
  optTruthy (token params) = false.

Definition directoryMode `{Number} (params : Params) (tok : jsstring) : Prop :=
  token params = Some tok /\ tok <> [].


(** Two runs of the test suite, as they begin and as they end. *)
Definition rejectedThenResolved : World string :=
  scripted ["alice"; "bob"]
    [Rejected "network"; Fulfilled [resolution "bob" true (Some "U234")]].

Definition rejectedThenResolvedEnd : World string :=
  after (scripted [] []) [] []
    [call (prompter_text (textOptions directoryExample));
     call (resolveEntries (lit "xoxb-test") [lit "alice"]);
     call (prompter_note FAILED_TO_RESOLVE (lit "allowlist"));
     call (prompter_text (textOptions directoryExample));
     call (resolveEntries (lit "xoxb-test") [lit "bob"])].

Definition unparseableThenParsed : World string :=
  scripted ["@alice,123"; "123"] [].

Definition unparseableThenParsedEnd : World string :=
  after (scripted [] []) [] []
    [call (prompter_text (textOptions localExample));
     call (prompter_note (lit "ids only") (lit "allowlist"));
     call (prompter_text (textOptions localExample))].

(** A text of white space only (the empty text included). *)
Definition blank (s : jsstring) : Prop :=
  Forall (fun c => JS.isWhiteSpace c = true) s.

(** The patchers factor through one channel: the snapshot with [channel]
    replaced by [f] of what it was, an object without properties when it
    was missing. *)
Definition patchChannel `{Number} {V} (cfg : OpenClawConfig V) (channel : jsstring)
           (f : ChannelConfig V -> ChannelConfig V) : OpenClawConfig V :=
  {| channels :=
       Some (<[channel := f (spreadChannel (channelOf cfg channel))]>
               (spreadMap (channels cfg)));
     config_rest := config_rest cfg |}.

(** What [setAccountAllowFromForChannel] makes of the channel object. *)
Definition writeAllowFrom `{Number} {V} (DEFAULT_ACCOUNT_ID accountId : jsstring)
           (allowFrom : list jsstring) (c : ChannelConfig V) : ChannelConfig V :=
  if bool_decide (accountId = DEFAULT_ACCOUNT_ID) then
    {| channel_allowFrom := Some (Str <$> allowFrom);
       channel_dmPolicy := channel_dmPolicy c;
       channel_accounts := channel_accounts c;
       channel_rest := channel_rest c |}
  else
    {| channel_allowFrom := channel_allowFrom c;
       channel_dmPolicy := channel_dmPolicy c;
       channel_accounts :=
         Some (<[accountId :=
                  {| account_allowFrom := Some (Str <$> allowFrom);
                     account_rest :=
                       account_rest (spreadAccount (accountOf (Some c) accountId)) |}]>
                 (spreadMap (channel_accounts c)));
       channel_rest := channel_rest c |}.

(** What [setChannelDmPolicyWithAllowFrom] makes of the channel object. *)
Definition writeDmPolicy `{Number} {V} (dmPolicy : jsstring) (c : ChannelConfig V)
  : ChannelConfig V :=
  {| channel_allowFrom :=
       if bool_decide (dmPolicy = OPEN)
       then Some (Str <$> addWildcardAllowFrom (channel_allowFrom c))
       else channel_allowFrom c;
     channel_dmPolicy := Some dmPolicy;
     channel_accounts := channel_accounts c;
     channel_rest := channel_rest c |}.

(** ** Strings: trimming *)

Section Trim.

Implicit Types s t : jsstring.

Lemma dropWhile_split {A} (p : A -> bool) (l : list A) :
  exists k, l = k ++ JS.dropWhile p l /\ Forall (fun x => p x = true) k.
Proof.
  induction l as [|x l [k [Hk Hall]]]; simpl.
  - exists []. by split.
  - destruct (p x) eqn:Hx.
    + exists (x :: k). split; [by rewrite Hk at 1 | by constructor].
    + exists []. by split.
Qed.

Lemma dropWhile_head {A} (p : A -> bool) (l : list A) x :
  head (JS.dropWhile p l) = Some x -> p x = false.
Proof.
  induction l as [|y l IH]; simpl; [done|].
  destruct (p y) eqn:Hy; [done|]. simpl. congruence.
Qed.

Lemma dropWhile_id {A} (p : A -> bool) (l : list A) :
  (forall x, head l = Some x -> p x = false) -> JS.dropWhile p l = l.
Proof.
  destruct l as [|y l]; simpl; [done|].
  intros Hh. by rewrite (Hh y eq_refl).
Qed.

Lemma trim_trimmed s : trimmed (JS.trim s).
Proof.
  unfold JS.trim, JS.trimEnd, JS.trimStart.
  set (t := JS.dropWhile JS.isWhiteSpace s).
  destruct (dropWhile_split JS.isWhiteSpace (reverse t)) as [k [Hk _]].
  set (u := JS.dropWhile JS.isWhiteSpace (reverse t)) in *.
  split; intros c Hc.
  - rewrite head_reverse in Hc.
    assert (Hlast : last (reverse t) = Some c).
    { rewrite Hk, last_app, Hc. done. }
    rewrite last_reverse in Hlast.
    by apply (dropWhile_head _ s).
  - rewrite last_reverse in Hc.
    by apply (dropWhile_head _ (reverse t)).
Qed.

Lemma trim_of_trimmed s : trimmed s -> JS.trim s = s.
Proof.
  intros [Hh Hl]. unfold JS.trim, JS.trimEnd, JS.trimStart.
  rewrite (dropWhile_id _ s Hh).
  rewrite dropWhile_id; [apply reverse_involutive|].
  intros c. rewrite head_reverse. apply Hl.
Qed.

Lemma trim_idemp s : JS.trim (JS.trim s) = JS.trim s.
Proof. apply trim_of_trimmed, trim_trimmed. Qed.

(** [trim] removes white space at both ends and nothing else. *)
Lemma trim_split s :
  exists pre post,
    s = pre ++ JS.trim s ++ post
    /\ Forall (fun c => JS.isWhiteSpace c = true) pre
    /\ Forall (fun c => JS.isWhiteSpace c = true) post.
Proof.
  unfold JS.trim, JS.trimEnd, JS.trimStart.
  destruct (dropWhile_split JS.isWhiteSpace s) as [pre [Hpre Hws]].
  set (t := JS.dropWhile JS.isWhiteSpace s) in *.
  destruct (dropWhile_split JS.isWhiteSpace (reverse t)) as [k [Hk Hk']].
  exists pre, (reverse k). repeat split; [|done|by apply Forall_reverse].
  rewrite <- reverse_app, <- Hk, reverse_involutive. done.
Qed.

Lemma truthy_true s : JS.truthy s = true <-> s <> [].
Proof. by destruct s. Qed.

Lemma truthy_Is_true s : Is_true (JS.truthy s) <-> s <> [].
Proof. by destruct s. Qed.

Lemma filterBoolean_elem (l : list jsstring) s :
  s ∈ JS.filterBoolean l <-> s ∈ l /\ s <> [].
Proof.
  unfold JS.filterBoolean. rewrite list_elem_of_filter, truthy_Is_true. tauto.
Qed.

Lemma filterBoolean_app (l1 l2 : list jsstring) :
  JS.filterBoolean (l1 ++ l2) = JS.filterBoolean l1 ++ JS.filterBoolean l2.
Proof. apply filter_app. Qed.

Lemma filterBoolean_id (l : list jsstring) :
  Forall (fun s => s <> []) l -> JS.filterBoolean l = l.
Proof.
  induction 1 as [|s l Hs _ IH]; [done|].
  unfold JS.filterBoolean in *. rewrite filter_cons_True; [by rewrite IH|].
  by apply truthy_Is_true.
Qed.

End Trim.

(** ** Arrays: [Set] de-duplication *)

Section SetFrom.

Implicit Types x y : jsstring.
Implicit Types l acc : list jsstring.

Lemma Set_add_elem acc x y : y ∈ JS.Set_add acc x <-> y ∈ acc \/ y = x.
Proof.
  unfold JS.Set_add, JS.includes. case_bool_decide as Hin.
  - split; [tauto|]. intros [?| ->]; done.
  - rewrite elem_of_app, list_elem_of_singleton. tauto.
Qed.

Lemma Set_add_NoDup acc x : NoDup acc -> NoDup (JS.Set_add acc x).
Proof.
  intros Hnd. unfold JS.Set_add, JS.includes. case_bool_decide as Hin; [done|].
  apply NoDup_app. split_and!; [done| |apply NoDup_singleton].
  intros y Hy ->%list_elem_of_singleton. done.
Qed.

Lemma foldl_Set_add_elem l acc y :
  y ∈ foldl JS.Set_add acc l <-> y ∈ acc \/ y ∈ l.
Proof.
  revert acc. induction l as [|x l IH]; intros acc; simpl.
  - rewrite elem_of_nil. tauto.
  - rewrite IH, Set_add_elem, elem_of_cons. tauto.
Qed.

Lemma foldl_Set_add_NoDup l acc :
  NoDup acc -> NoDup (foldl JS.Set_add acc l).
Proof.
  revert acc. induction l as [|x l IH]; intros acc Hnd; simpl; [done|].
  by apply IH, Set_add_NoDup.
Qed.

Lemma Set_from_elem l y : y ∈ JS.Set_from l <-> y ∈ l.
Proof.
  unfold JS.Set_from. rewrite foldl_Set_add_elem, elem_of_nil. tauto.
Qed.

Lemma Set_from_NoDup l : NoDup (JS.Set_from l).
Proof. apply foldl_Set_add_NoDup, NoDup_nil_2. Qed.

(** Adding to a non-empty set: what is already a member is skipped, the
    rest is appended in the order of its first occurrences. *)
Lemma foldl_Set_add_app l acc :
  foldl JS.Set_add acc l
  = acc ++ JS.Set_from (filter (fun y => y ∉ acc) l).
Proof.
  unfold JS.Set_from.
  remember (length l) as n eqn:Hn. revert l acc Hn.
  induction n as [n IH] using lt_wf_ind. intros l acc ->.
  destruct l as [|x l]; simpl.
  - by rewrite app_nil_r.
  - unfold JS.Set_add at 2, JS.includes. case_bool_decide as Hin.
    + rewrite filter_cons_False by tauto.
      eapply IH; [|done]. simpl. lia.
    + rewrite filter_cons_True by done. simpl.
      rewrite (IH (length l)) with (l := l) (acc := acc ++ [x]);
        [|simpl; lia|done].
      rewrite (IH (length (filter (fun y => y ∉ acc) l)))
        with (acc := [x]); [|pose proof (length_filter (fun y => y ∉ acc) l); simpl; lia|done].
      rewrite <- app_assoc. simpl. do 3 f_equal.
      rewrite list_filter_filter. apply list_filter_iff.
      intros y. rewrite elem_of_app, list_elem_of_singleton. tauto.
Qed.

Lemma Set_from_nil : JS.Set_from [] = [].
Proof. done. Qed.

Lemma Set_from_cons x l :
  JS.Set_from (x :: l) = x :: JS.Set_from (filter (fun y => y <> x) l).
Proof.
  unfold JS.Set_from at 1. simpl.
  replace (JS.Set_add [] x) with [x].
  - rewrite foldl_Set_add_app. simpl. do 2 f_equal.
    apply list_filter_iff. intros y. rewrite list_elem_of_singleton. tauto.
  - unfold JS.Set_add, JS.includes.
    rewrite bool_decide_eq_false_2; [done|apply not_elem_of_nil].
Qed.

Lemma Set_from_app l1 l2 :
  JS.Set_from (l1 ++ l2)
  = JS.Set_from l1 ++ JS.Set_from (filter (fun y => y ∉ l1) l2).
Proof.
  unfold JS.Set_from at 1. rewrite foldl_app.
  fold (JS.Set_from l1). rewrite foldl_Set_add_app. do 2 f_equal.
  apply list_filter_iff. intros y. by rewrite Set_from_elem.
Qed.

Lemma Set_from_filter (P : jsstring -> Prop) `{!forall x, Decision (P x)} l :
  JS.Set_from (filter P l) = filter P (JS.Set_from l).
Proof.
  remember (length l) as n eqn:Hn. revert l Hn.
  induction n as [n IH] using lt_wf_ind. intros l ->.
  destruct l as [|x l]; [done|].
  assert (Hlen : (length (filter (fun y => y <> x) l) < length (x :: l))%nat).
  { pose proof (length_filter (fun y => y <> x) l). simpl. lia. }
  rewrite Set_from_cons. destruct (decide (P x)) as [Hx|Hx].
  - rewrite !filter_cons_True by done. rewrite Set_from_cons. f_equal.
    rewrite <- (IH _ Hlen _ eq_refl). f_equal.
    rewrite !list_filter_filter. apply list_filter_iff. tauto.
  - rewrite !filter_cons_False by done.
    rewrite <- (IH _ Hlen _ eq_refl). f_equal.
    rewrite list_filter_filter. apply list_filter_iff.
    intros y. split; [|tauto]. intros Hy. split; [done|]. by intros ->.
Qed.

Lemma Set_from_firstOccurrences l : JS.Set_from l = firstOccurrences l.
Proof.
  induction l as [|x l IH]; [done|].
  rewrite Set_from_cons, Set_from_filter, IH. done.
Qed.

(** A duplicate-free array goes through a [Set] unchanged. *)
Lemma Set_from_NoDup_id l : NoDup l -> JS.Set_from l = l.
Proof.
  induction 1 as [|x l Hx Hnd IH]; [done|].
  rewrite Set_from_cons. f_equal. rewrite <- IH at 2. f_equal.
  clear -Hx. induction l as [|y l IHl]; [done|].
  apply not_elem_of_cons in Hx as [Hne Hx].
  rewrite filter_cons_True by done. by rewrite IHl.
Qed.

Lemma Set_from_idemp l : JS.Set_from (JS.Set_from l) = JS.Set_from l.
Proof. apply Set_from_NoDup_id, Set_from_NoDup. Qed.

(** Values already in the set add nothing. *)
Lemma Set_from_app_present l1 l2 :
  Forall (fun y => y ∈ l1) l2 -> JS.Set_from (l1 ++ l2) = JS.Set_from l1.
Proof.
  intros Hall. rewrite Set_from_app.
  replace (filter (fun y => y ∉ l1) l2) with (@nil jsstring);
    [by rewrite app_nil_r|].
  symmetry. induction Hall as [|y l2 Hy _ IH]; [done|].
  rewrite filter_cons_False by tauto. done.
Qed.

End SetFrom.

(** ** Entries and the merge *)

Section Merge.

Context `{Number}.
Implicit Types v : Entry.
Implicit Types x : jsstring.
Implicit Types l : list Entry.

Lemma trimmedEntries_elem l x :
  x ∈ trimmedEntries l
  <-> x <> [] /\ exists v, v ∈ l /\ x = JS.trim (ToString v).
Proof.
  unfold trimmedEntries. rewrite filterBoolean_elem, list_elem_of_fmap.
  split.
  - intros [(v & -> & Hv) Hne]. eauto.
  - intros [Hne (v & Hv & ->)]. eauto.
Qed.

Lemma trimmedEntries_app l1 l2 :
  trimmedEntries (l1 ++ l2) = trimmedEntries l1 ++ trimmedEntries l2.
Proof. unfold trimmedEntries. by rewrite fmap_app, filterBoolean_app. Qed.

Lemma trimmedEntries_wf l :
  Forall (fun x => x <> [] /\ trimmed x) (trimmedEntries l).
Proof.
  apply Forall_forall. intros x [Hne [v [_ ->]]]%trimmedEntries_elem.
  split; [done|apply trim_trimmed].
Qed.

(** Texts that are already trimmed and non-empty come back as they
    are. *)
Lemma trimmedEntries_Str (xs : list jsstring) :
  Forall (fun x => x <> [] /\ trimmed x) xs -> trimmedEntries (Str <$> xs) = xs.
Proof.
  induction 1 as [|x xs [Hne Htr] _ IH]; [done|].
  change (Str <$> x :: xs) with ([Str x] ++ (Str <$> xs)).
  rewrite trimmedEntries_app, IH. unfold trimmedEntries. simpl.
  rewrite (trim_of_trimmed x Htr), filterBoolean_id; [done|].
  by repeat constructor.
Qed.

Lemma merge_elem current additions x :
  x ∈ mergeAllowFromEntries current additions
  <-> x <> [] /\ exists v, v ∈ orEmpty current ++ additions /\ x = JS.trim (ToString v).
Proof.
  unfold mergeAllowFromEntries. by rewrite Set_from_elem, trimmedEntries_elem.
Qed.

Lemma merge_NoDup current additions :
  NoDup (mergeAllowFromEntries current additions).
Proof. apply Set_from_NoDup. Qed.

Lemma merge_wf current additions :
  Forall (fun x => x <> [] /\ trimmed x) (mergeAllowFromEntries current additions).
Proof.
  unfold mergeAllowFromEntries. apply Forall_forall. intros x Hx.
  rewrite Set_from_elem in Hx.
  revert x Hx. apply Forall_forall, trimmedEntries_wf.
Qed.

Lemma merge_nil current :
  mergeAllowFromEntries current []
  = JS.Set_from (trimmedEntries (orEmpty current)).
Proof. unfold mergeAllowFromEntries. by rewrite app_nil_r. Qed.

(** Existing entries come first; an addition shows up only if it is
    new. *)
Lemma merge_existing_first current additions :
  mergeAllowFromEntries current additions
  = mergeAllowFromEntries current []
    ++ filter (fun x => x ∉ trimmedEntries (orEmpty current))
         (mergeAllowFromEntries None additions).
Proof.
  rewrite merge_nil. unfold mergeAllowFromEntries. simpl.
  by rewrite trimmedEntries_app, Set_from_app, Set_from_filter.
Qed.

Lemma merge_present current additions :
  Forall (fun a => JS.trim (ToString a) = []
                   \/ JS.trim (ToString a) ∈ trimmedEntries (orEmpty current))
         additions ->
  mergeAllowFromEntries current additions = mergeAllowFromEntries current [].
Proof.
  intros Hall. rewrite merge_nil. unfold mergeAllowFromEntries.
  rewrite trimmedEntries_app. apply Set_from_app_present.
  apply Forall_forall. intros x [Hne [a [Ha ->]]]%trimmedEntries_elem.
  rewrite Forall_forall in Hall. destruct (Hall a Ha); done.
Qed.

Lemma merge_self current :
  mergeAllowFromEntries current (orEmpty current)
  = mergeAllowFromEntries current [].
Proof.
  apply merge_present, Forall_forall. intros a Ha.
  destruct (decide (JS.trim (ToString a) = [])) as [|Hne]; [by left|right].
  apply trimmedEntries_elem. eauto.
Qed.

(** Merging the same additions into the result once more changes
    nothing. *)
Lemma merge_again current additions :
  mergeAllowFromEntries
    (Some (Str <$> mergeAllowFromEntries current additions)) additions
  = mergeAllowFromEntries current additions.
Proof.
  set (r := mergeAllowFromEntries current additions).
  assert (Hr : trimmedEntries (Str <$> r) = r)
    by apply trimmedEntries_Str, merge_wf.
  rewrite merge_present.
  - rewrite merge_nil. simpl. rewrite Hr. apply Set_from_NoDup_id, merge_NoDup.
  - apply Forall_forall. intros a Ha. simpl. rewrite Hr.
    destruct (decide (JS.trim (ToString a) = [])) as [|Hne]; [by left|right].
    apply merge_elem. split; [done|]. exists a. split; [|done].
    apply elem_of_app. by right.
Qed.

(** An allowlist (trimmed, non-empty, duplicate-free texts) merged with
    itself is that allowlist. *)
Lemma merge_allowlist_self (xs : list jsstring) :
  NoDup xs -> Forall (fun x => x <> [] /\ trimmed x) xs ->
  mergeAllowFromEntries (Some (Str <$> xs)) (Str <$> xs) = xs.
Proof.
  intros Hnd Hwf.
  change (Str <$> xs) with (orEmpty (Some (Str <$> xs))) at 2.
  rewrite merge_self, merge_nil. simpl.
  rewrite trimmedEntries_Str by done. by apply Set_from_NoDup_id.
Qed.

End Merge.

(** ** Splitting *)

Section Split.

Implicit Types s seg cur : jsstring.

Lemma tokens_cons seg l :
  tokens (seg :: l) = tokens [seg] ++ tokens l.
Proof. unfold tokens. by rewrite <- filterBoolean_app. Qed.

Lemma tokens_empty_cons l : tokens ([] :: l) = tokens l.
Proof. done. Qed.

Lemma tokens_cons_eq seg l l' :
  tokens l = tokens l' -> tokens (seg :: l) = tokens (seg :: l').
Proof. intros Heq. by rewrite tokens_cons, Heq, <- tokens_cons. Qed.

(** Reading a separator-free segment only extends the current piece. *)
Lemma splitRuns_segment seg b cur s :
  separatorFree seg -> seg <> [] ->
  JS.splitRuns isEntrySeparator b cur (seg ++ s)
  = JS.splitRuns isEntrySeparator false (reverse seg ++ cur) s.
Proof.
  intros Hfree. revert b cur.
  induction Hfree as [|c seg Hc Hfree IH]; intros b cur Hne; [done|].
  simpl. rewrite Hc, reverse_cons, <- app_assoc. simpl.
  destruct seg as [|c' seg]; [done|]. by apply IH.
Qed.

(** Inside a run further separators are skipped. *)
Lemma splitRuns_run sepRun s :
  Forall (fun c => isEntrySeparator c = true) sepRun ->
  JS.splitRuns isEntrySeparator true [] (sepRun ++ s)
  = JS.splitRuns isEntrySeparator true [] s.
Proof. induction 1 as [|c sepRun Hc _ IH]; [done|]. simpl. by rewrite Hc. Qed.

Lemma tokens_splitRuns_run b sepRun s :
  separatorRun sepRun ->
  tokens (JS.splitRuns isEntrySeparator b [] (sepRun ++ s))
  = tokens (JS.splitRuns isEntrySeparator true [] s).
Proof.
  intros [Hne Hall]. destruct Hall as [|c sepRun Hc Hall]; [done|].
  simpl. rewrite Hc. destruct b.
  - by rewrite splitRuns_run.
  - by rewrite splitRuns_run, reverse_nil, tokens_empty_cons.
Qed.

Lemma tokens_split_interleave rest : forall seg0 b,
  separatorFree seg0 ->
  Forall (fun p => separatorRun p.1 /\ separatorFree p.2) rest ->
  tokens (JS.splitRuns isEntrySeparator b [] (interleave seg0 rest))
  = tokens (seg0 :: rest.*2).
Proof.
  induction rest as [|[sepRun seg] rest IH]; intros seg0 b Hfree Hrest; simpl.
  - destruct seg0 as [|c seg0]; [done|].
    rewrite <- (app_nil_r (c :: seg0)) at 1.
    rewrite splitRuns_segment by done. simpl.
    by rewrite app_nil_r, reverse_involutive.
  - apply Forall_cons in Hrest as [[Hrun Hseg] Hrest]. simpl in *.
    destruct seg0 as [|c seg0].
    + simpl. rewrite tokens_splitRuns_run by done.
      rewrite tokens_empty_cons. by apply IH.
    + rewrite splitRuns_segment by done. rewrite app_nil_r.
      destruct Hrun as [Hne Hall].
      destruct Hall as [|d sepRun Hd Hall]; [done|].
      simpl. rewrite Hd, reverse_involutive, splitRuns_run by done.
      apply tokens_cons_eq. by apply IH.
Qed.

(** Every text is laid out as segments between separator runs. *)
Lemma interleave_exists s :
  exists seg0 rest,
    s = interleave seg0 rest /\ separatorFree seg0
    /\ Forall (fun p => separatorRun p.1 /\ separatorFree p.2) rest.
Proof.
  induction s as [|c s (seg0 & rest & -> & Hfree & Hrest)].
  - exists [], []. repeat split; constructor.
  - destruct (isEntrySeparator c) eqn:Hc.
    + exists [], (([c], seg0) :: rest). repeat split; [constructor| ].
      constructor; [|done]. simpl. repeat split; [done| |done].
      by constructor.
    + exists (c :: seg0), rest. split; [by destruct rest as [|[??]?]|].
      split; [by constructor|done].
Qed.

(** The pieces [split] answers hold no separator. *)
Lemma splitRuns_separatorFree s : forall b cur,
  separatorFree cur ->
  Forall separatorFree (JS.splitRuns isEntrySeparator b cur s).
Proof.
  induction s as [|c s IH]; intros b cur Hcur; simpl.
  - constructor; [by apply Forall_reverse|constructor].
  - destruct (isEntrySeparator c) eqn:Hc.
    + destruct b; [by apply IH|].
      constructor; [by apply Forall_reverse|]. apply IH. constructor.
    + apply IH. by constructor.
Qed.

Lemma trim_separatorFree s : separatorFree s -> separatorFree (JS.trim s).
Proof.
  intros Hfree. destruct (trim_split s) as (pre & post & Hs & _).
  unfold separatorFree in *. rewrite Hs in Hfree.
  by apply Forall_app in Hfree as [_ [? _]%Forall_app].
Qed.

End Split.

(** ** Running programs *)

Section Run.

Context {E : Type -> Type} {W : Type} (h : Handler E W).

Lemma run_never_out_of_fuel {A} (p : Prog E A) (w : W) : run h p w <> OutOfFuel.
Proof.
revert w. induction p as [a|X e k IH]; intros w; simpl; [done|].
destruct (h X e w) as [[x w']|]; [apply IH|done].
Qed.

Lemma whileTrue_return {A} (body : Prog E (option A)) fuel w r w' :
  run h body w = Returned (Some r) w' ->
  whileTrue h body (S fuel) w = Returned r w'.
Proof. intros Hrun. simpl. by rewrite Hrun. Qed.

Lemma whileTrue_continue {A} (body : Prog E (option A)) fuel w w' :
  run h body w = Returned None w' ->
  whileTrue h body (S fuel) w = whileTrue h body fuel w'.
Proof. intros Hrun. simpl. by rewrite Hrun. Qed.

Lemma whileTrue_awaiting {A} (body : Prog E (option A)) fuel w w' :
  run h body w = Awaiting w' ->
  whileTrue h body (S fuel) w = Awaiting w'.
Proof. intros Hrun. simpl. by rewrite Hrun. Qed.

End Run.

(** ** One round of the loop *)

Section Round.

Context `{Number} {R : Type}.
Implicit Types params : Params.
Implicit Types w : World R.
Implicit Types results : list AllowFromResolution.t.

Lemma isUnresolved_acceptable res : isUnresolved res = negb (acceptable res).
Proof.
destruct res as [i [] [[|c s]|]]; unfold isUnresolved, acceptable; simpl; try done.
Qed.

Lemma filter_isUnresolved results :
  filter (fun res => isUnresolved res) results = unacceptable results.
Proof.
unfold unacceptable. apply list_filter_iff. intros res.
rewrite isUnresolved_acceptable. by destruct (acceptable res).
Qed.

Lemma unacceptable_nil results :
  unacceptable results = [] <-> Forall (fun res => acceptable res = true) results.
Proof.
unfold unacceptable. induction results as [|res results IH]; [by split|].
destruct (acceptable res) eqn:Hres.
- rewrite filter_cons_False by congruence. rewrite IH. split.
  + by constructor.
  + by intros [_ ?]%Forall_cons.
- rewrite filter_cons_True by done. split; [done|].
  intros [? _]%Forall_cons. congruence.
Qed.

Lemma length_pos_nonempty {A} (l : list A) : (0 <? length l)%nat = true <-> l <> [].
Proof. destruct l; simpl; split; done. Qed.

(** The parsed candidates that survive [filter(Boolean)] are all of them
    exactly when every candidate parses. *)
Lemma localIds_all params parts :
  parsesAll params parts ->
  default [] <$> filter (fun o => optTruthy o) (parseId params <$> parts)
  = parsedIds params parts.
Proof.
unfold parsedIds. induction 1 as [|part parts Hp _ IH]; [done|].
rewrite !fmap_cons, filter_cons_True by (by rewrite Hp).
by rewrite fmap_cons, IH.
Qed.

Lemma localIds_length params parts :
  length (default [] <$> filter (fun o => optTruthy o) (parseId params <$> parts))
  = length parts
  <-> parsesAll params parts.
Proof.
rewrite length_fmap. split.
- induction parts as [|part parts IH]; [constructor|]. rewrite fmap_cons.
  pose proof (length_filter (fun o => optTruthy o) (parseId params <$> parts)) as Hle.
  rewrite length_fmap in Hle.
  destruct (optTruthy (parseId params part)) eqn:Hp.
  + rewrite filter_cons_True by (by rewrite Hp). rewrite !length_cons. intros Hlen.
    constructor; [done|]. apply IH. lia.
  + rewrite filter_cons_False by (rewrite Hp; intros []). rewrite length_cons. lia.
- intros Hall. rewrite <- (length_fmap (default [])), (localIds_all _ _ Hall).
  unfold parsedIds. by rewrite length_fmap.
Qed.

Lemma run_round_idle params w :
  texts w = [] -> run wizard (round params) w = Awaiting w.
Proof. intros Ht. unfold round. simpl. by rewrite Ht. Qed.

Lemma run_round_local_accept params w entry ts :
  localMode params -> texts w = entry :: ts ->
  parsesAll params (parseInputs params entry) ->
  run wizard (round params) w
  = Returned
      (Some (mergeAllowFromEntries (Some (existing params))
               (Str <$> parsedIds params (parseInputs params entry))))
      (after w ts (resolutions w) (localReturnCalls params)).
Proof.
intros Hlocal Ht Hall. unfold round, localMode in *. simpl. rewrite Ht, Hlocal. simpl.
rewrite (proj2 (localIds_length params _) Hall), Nat.eqb_refl. simpl.
by rewrite localIds_all.
Qed.

Lemma run_round_local_retry params w entry ts :
  localMode params -> texts w = entry :: ts ->
  ~ parsesAll params (parseInputs params entry) ->
  run wizard (round params) w
  = Returned None
      (after w ts (resolutions w) (localRetryCalls params)).
Proof.
intros Hlocal Ht Hnot. unfold round, localMode in *. simpl. rewrite Ht, Hlocal. simpl.
destruct (Nat.eqb_spec
  (length (default [] <$> filter (fun o => optTruthy o)
             (parseId params <$> parseInputs params entry)))
  (length (parseInputs params entry))) as [Heq|Hne].
- by apply localIds_length in Heq.
- simpl. unfold after, logged. simpl. by rewrite <- app_assoc.
Qed.

Lemma run_round_directory_pending params tok w entry ts :
  directoryMode params tok -> texts w = entry :: ts -> resolutions w = [] ->
  run wizard (round params) w
  = Awaiting (after w ts [] [call (prompter_text (textOptions params))]).
Proof.
intros [Htok Hne] Ht Hr. unfold round. simpl. rewrite Ht, Htok. simpl.
destruct tok as [|c tok]; [done|]. simpl. by rewrite Hr.
Qed.

Lemma run_round_rejected params tok w entry ts reason rs :
  directoryMode params tok -> texts w = entry :: ts ->
  resolutions w = Rejected reason :: rs ->
  run wizard (round params) w
  = Returned None
      (after w ts rs (directoryRetryCalls params tok entry (Rejected reason))).
Proof.
intros [Htok Hne] Ht Hr. unfold round. simpl. rewrite Ht, Htok. simpl.
destruct tok as [|c tok]; [done|]. simpl. rewrite Hr. simpl.
unfold after, logged. simpl. by rewrite <- !app_assoc.
Qed.

Lemma run_round_unresolved params tok w entry ts results rs :
  directoryMode params tok -> texts w = entry :: ts ->
  resolutions w = Fulfilled results :: rs ->
  unacceptable results <> [] ->
  run wizard (round params) w
  = Returned None
      (after w ts rs (directoryRetryCalls params tok entry (Fulfilled results))).
Proof.
intros [Htok Hne] Ht Hr Hun. unfold round. simpl. rewrite Ht, Htok. simpl.
destruct tok as [|c tok]; [done|]. simpl. rewrite Hr. simpl.
rewrite filter_isUnresolved.
rewrite (proj2 (length_pos_nonempty _) Hun). simpl.
unfold after, logged. simpl. by rewrite <- !app_assoc.
Qed.

Lemma run_round_resolved params tok w entry ts results rs :
  directoryMode params tok -> texts w = entry :: ts ->
  resolutions w = Fulfilled results :: rs ->
  unacceptable results = [] ->
  run wizard (round params) w
  = Returned
      (Some (mergeAllowFromEntries (Some (existing params))
               (Str <$> (idAsString <$> results))))
      (after w ts rs (directoryReturnCalls params tok entry)).
Proof.
intros [Htok Hne] Ht Hr Hun. unfold round. simpl. rewrite Ht, Htok. simpl.
destruct tok as [|c tok]; [done|]. simpl. rewrite Hr. simpl.
rewrite filter_isUnresolved, Hun. simpl.
unfold after, logged. simpl. by rewrite <- !app_assoc.
Qed.

End Round.

(** ** The loop as a whole *)

Section Loop.

Context `{Number} {R : Type}.
Implicit Types params : Params.
Implicit Types w : World R.

Lemma after_after w ts rs new ts' rs' new' :
  after (after w ts rs new) ts' rs' new' = after w ts' rs' (new ++ new').
Proof. unfold after. simpl. by rewrite app_assoc. Qed.

Lemma loop_return params w r w' :
  run wizard (round params) w = Returned (Some r) w' ->
  promptResolvedAllowFrom params w = Returned r w'.
Proof. apply whileTrue_return. Qed.

Lemma loop_awaiting params w w' :
  run wizard (round params) w = Awaiting w' ->
  promptResolvedAllowFrom params w = Awaiting w'.
Proof. apply whileTrue_awaiting. Qed.

(** A round that ends in [continue] hands the loop over, in the state it
    began with, to the rest of the script. *)
Lemma loop_retry params w entry ts rs new :
  texts w = entry :: ts ->
  run wizard (round params) w = Returned None (after w ts rs new) ->
  promptResolvedAllowFrom params w = promptResolvedAllowFrom params (after w ts rs new).
Proof.
intros Ht Hrun. unfold promptResolvedAllowFrom. rewrite Ht. simpl length.
by apply whileTrue_continue.
Qed.

Lemma directoryMode_truthy params tok :
  directoryMode params tok -> optTruthy (token params) = true.
Proof. intros [-> Hne]. by destruct tok. Qed.

Lemma mode_cases params :
  localMode params \/ exists tok, directoryMode params tok.
Proof.
unfold localMode, directoryMode.
destruct (token params) as [[|c tok]|]; simpl; eauto.
Qed.

Lemma run_round_failed params tok w entry ts s rs :
  directoryMode params tok -> texts w = entry :: ts ->
  resolutions w = s :: rs -> failedResolution s ->
  run wizard (round params) w
  = Returned None (after w ts rs (directoryRetryCalls params tok entry s)).
Proof.
intros Hmode Ht Hr Hfail. destruct s as [results|reason].
- by apply run_round_unresolved.
- by eapply run_round_rejected.
Qed.

Lemma failedResolution_dec (s : Settled R (list AllowFromResolution.t)) :
  failedResolution s
  \/ exists results, s = Fulfilled results /\ unacceptable results = [].
Proof.
destruct s as [results|reason]; simpl; [|by left].
destruct (decide (unacceptable results = [])); eauto.
Qed.

(** *** Local mode *)

(** Rounds whose input does not parse are retried; the first round whose
    candidates all parse returns. *)
Lemma local_loop_returns params failed : forall w entry ts,
  localMode params ->
  texts w = failed ++ entry :: ts ->
  Forall (fun e => ~ parsesAll params (parseInputs params e)) failed ->
  parsesAll params (parseInputs params entry) ->
  promptResolvedAllowFrom params w
  = Returned
      (mergeAllowFromEntries (Some (existing params))
         (Str <$> parsedIds params (parseInputs params entry)))
      (after w ts (resolutions w)
         (concat (replicate (length failed) (localRetryCalls params))
          ++ localReturnCalls params)).
Proof.
induction failed as [|e failed IH]; intros w entry ts Hlocal Ht Hfailed Hok.
- apply loop_return. by apply run_round_local_accept.
- apply Forall_cons in Hfailed as [He Hfailed]. simpl in Ht.
  pose proof (run_round_local_retry params w e _ Hlocal Ht He) as Hrun.
  rewrite (loop_retry _ _ _ _ _ _ Ht Hrun).
  erewrite IH; [|done|reflexivity|done|done].
  by rewrite after_after.
Qed.

Lemma local_loop_sound params : forall w r w',
  localMode params ->
  promptResolvedAllowFrom params w = Returned r w' ->
  exists failed entry ts,
    texts w = failed ++ entry :: ts
    /\ Forall (fun e => ~ parsesAll params (parseInputs params e)) failed
    /\ parsesAll params (parseInputs params entry)
    /\ r = mergeAllowFromEntries (Some (existing params))
             (Str <$> parsedIds params (parseInputs params entry))
    /\ w' = after w ts (resolutions w)
              (concat (replicate (length failed) (localRetryCalls params))
               ++ localReturnCalls params).
Proof.
intros w. remember (texts w) as script eqn:Hs. revert w Hs.
induction script as [|e script IH]; intros w Hs r w' Hlocal Hret.
- by rewrite (loop_awaiting _ _ _ (run_round_idle params w (eq_sym Hs))) in Hret.
- symmetry in Hs.
  destruct (decide (parsesAll params (parseInputs params e))) as [Hok|Hno].
  + exists [], e, script. split_and!; [done|constructor|done| |].
    * pose proof (local_loop_returns params [] w e script Hlocal Hs
                    (Forall_nil_2 _) Hok) as Heq.
      rewrite Heq in Hret. by injection Hret as <- _.
    * pose proof (local_loop_returns params [] w e script Hlocal Hs
                    (Forall_nil_2 _) Hok) as Heq.
      rewrite Heq in Hret. by injection Hret as _ <-.
  + pose proof (run_round_local_retry params w e _ Hlocal Hs Hno) as Hrun.
    rewrite (loop_retry _ _ _ _ _ _ Hs Hrun) in Hret.
    destruct (IH (after w script (resolutions w) (localRetryCalls params))
                eq_refl _ _ Hlocal Hret)
      as (failed & entry & ts & Ht & Hfailed & Hok & -> & ->).
    exists (e :: failed), entry, ts.
    split_and!; [by rewrite Ht|by constructor|done|done|].
    by rewrite after_after.
Qed.

(** *** Directory mode *)

Lemma directory_loop_returns params tok failed : forall w failedRes entry ts results rs,
  directoryMode params tok ->
  texts w = failed ++ entry :: ts ->
  resolutions w = failedRes ++ Fulfilled results :: rs ->
  length failed = length failedRes ->
  Forall failedResolution failedRes ->
  unacceptable results = [] ->
  promptResolvedAllowFrom params w
  = Returned
      (mergeAllowFromEntries (Some (existing params))
         (Str <$> (idAsString <$> results)))
      (after w ts rs
         (concat (zip_with (directoryRetryCalls params tok) failed failedRes)
          ++ directoryReturnCalls params tok entry)).
Proof.
induction failed as [|e failed IH];
  intros w failedRes entry ts results rs Hmode Ht Hr Hlen Hfailed Hok.
- destruct failedRes; [|done]. apply loop_return.
  by apply run_round_resolved.
- destruct failedRes as [|s failedRes]; [done|].
  apply Forall_cons in Hfailed as [Hs Hfailed]. simpl in Ht, Hr.
  pose proof (run_round_failed params tok w e _ s _ Hmode Ht Hr Hs) as Hrun.
  rewrite (loop_retry _ _ _ _ _ _ Ht Hrun).
  erewrite IH; [|done|reflexivity|reflexivity| |done|done].
  + by rewrite after_after.
  + simpl in Hlen. lia.
Qed.

Lemma directory_loop_sound params tok : forall w r w',
  directoryMode params tok ->
  promptResolvedAllowFrom params w = Returned r w' ->
  exists failed failedRes entry ts results rs,
    texts w = failed ++ entry :: ts
    /\ resolutions w = failedRes ++ Fulfilled results :: rs
    /\ length failed = length failedRes
    /\ Forall failedResolution failedRes
    /\ unacceptable results = []
    /\ r = mergeAllowFromEntries (Some (existing params))
             (Str <$> (idAsString <$> results))
    /\ w' = after w ts rs
              (concat (zip_with (directoryRetryCalls params tok) failed failedRes)
               ++ directoryReturnCalls params tok entry).
Proof.
intros w. remember (texts w) as script eqn:Hs. revert w Hs.
induction script as [|e script IH]; intros w Hs r w' Hmode Hret.
- by rewrite (loop_awaiting _ _ _ (run_round_idle params w (eq_sym Hs))) in Hret.
- symmetry in Hs. destruct (resolutions w) as [|s rs0] eqn:Hr.
  { by rewrite (loop_awaiting _ _ _
                  (run_round_directory_pending params tok w e _ Hmode Hs Hr)) in Hret. }
  destruct (failedResolution_dec s) as [Hfail|(results & -> & Hok)].
  + pose proof (run_round_failed params tok w e _ s _ Hmode Hs Hr Hfail) as Hrun.
    rewrite (loop_retry _ _ _ _ _ _ Hs Hrun) in Hret.
    destruct (IH (after w script rs0 (directoryRetryCalls params tok e s))
                eq_refl _ _ Hmode Hret)
      as (failed & failedRes & entry & ts & results & rs
          & Ht & Hrs & Hlen & Hfailed & Hok & -> & ->).
    simpl in Hrs. exists (e :: failed), (s :: failedRes), entry, ts, results, rs.
    split_and!; [by rewrite Ht|by rewrite Hrs|simpl; lia|by constructor|done|done|].
    by rewrite after_after.
  + pose proof (directory_loop_returns params tok [] w [] e script results rs0
                  Hmode Hs Hr eq_refl (Forall_nil_2 _) Hok) as Heq.
    rewrite Heq in Hret. injection Hret as <- <-.
    exists [], [], e, script, results, rs0. split_and!; try done.
Qed.

(** *** Fuel *)

(** The fuel [promptResolvedAllowFrom] gives its loop is never used up:
    a run returns or waits for the environment. *)
Lemma loop_never_out_of_fuel params : forall w,
  promptResolvedAllowFrom params w <> OutOfFuel.
Proof.
intros w. remember (texts w) as script eqn:Hs. revert w Hs.
induction script as [|e script IH]; intros w Hs; symmetry in Hs.
- by rewrite (loop_awaiting _ _ _ (run_round_idle params w Hs)).
- destruct (mode_cases params) as [Hlocal|[tok Hmode]].
  + destruct (decide (parsesAll params (parseInputs params e))) as [Hok|Hno].
    * by rewrite (loop_return _ _ _ _ (run_round_local_accept params w e _ Hlocal Hs Hok)).
    * pose proof (run_round_local_retry params w e _ Hlocal Hs Hno) as Hrun.
      rewrite (loop_retry _ _ _ _ _ _ Hs Hrun). by apply IH.
  + destruct (resolutions w) as [|s rs0] eqn:Hr.
    { by rewrite (loop_awaiting _ _ _
                    (run_round_directory_pending params tok w e _ Hmode Hs Hr)). }
    destruct (failedResolution_dec s) as [Hfail|(results & -> & Hok)].
    * pose proof (run_round_failed params tok w e _ s _ Hmode Hs Hr Hfail) as Hrun.
      rewrite (loop_retry _ _ _ _ _ _ Hs Hrun). by apply IH.
    * by rewrite (loop_return _ _ _ _
                    (run_round_resolved params tok w e _ results _ Hmode Hs Hr Hok)).
Qed.

End Loop.

(** ** The entry parser, the set merger and the entry normalizer *)

Section PureHelpers.

Context `{Number}.

Lemma splitOnboardingEntries_wf raw :
  Forall (fun t => t <> [] /\ trimmed t /\ separatorFree t) (splitOnboardingEntries raw).
Proof.
apply Forall_forall. intros t. unfold splitOnboardingEntries.
rewrite filterBoolean_elem, list_elem_of_fmap. intros [(seg & -> & Hseg) Hne].
split_and!; [done|apply trim_trimmed|]. apply trim_separatorFree.
pose proof (splitRuns_separatorFree raw false [] (Forall_nil_2 _)) as Hall.
rewrite Forall_forall in Hall. by apply Hall.
Qed.

(** C9. [splitOnboardingEntries] splits its input on the runs of newline,
    comma and semicolon, trims every segment and drops the empty ones:
    however the input is laid out as separator-free segments between
    non-empty separator runs (and every input is laid out so), the result
    is the trimmed segments that are not empty, in order; every token is
    non-empty, trimmed and free of separators.  The function is total,
    the empty string gives the empty sequence, and
    [" a, b \nc;  ;\n"] gives [["a","b","c"]]. *)
Theorem splitOnboardingEntries_tokens :
  (forall seg0 rest,
      separatorFree seg0 ->
      Forall (fun p => separatorRun p.1 /\ separatorFree p.2) rest ->
      splitOnboardingEntries (interleave seg0 rest) = tokens (seg0 :: rest.*2))
  /\ (forall raw, exists seg0 rest,
         raw = interleave seg0 rest /\ separatorFree seg0
         /\ Forall (fun p => separatorRun p.1 /\ separatorFree p.2) rest)
  /\ (forall raw,
         Forall (fun t => t <> [] /\ trimmed t /\ separatorFree t)
                (splitOnboardingEntries raw))
  /\ splitOnboardingEntries [] = []
  /\ splitOnboardingEntries (lit " a, b " ++ [0x0A] ++ lit "c;  ;" ++ [0x0A])
     = [lit "a"; lit "b"; lit "c"].
Proof.
split_and!.
- intros seg0 rest Hseg Hrest. by apply tokens_split_interleave.
- apply interleave_exists.
- apply splitOnboardingEntries_wf.
- reflexivity.
- vm_compute. reflexivity.
Qed.

Lemma filter_nonempty_truthy (l : list jsstring) :
  filter (fun x => x <> []) l = JS.filterBoolean l.
Proof.
unfold JS.filterBoolean. apply list_filter_iff. intros x.
by rewrite truthy_Is_true.
Qed.

(** C4. [mergeAllowFromEntries] answers the union of both collections as
    trimmed, non-empty texts without duplicates, each value standing where
    it first occurs and the existing entries before the additions; merging
    a list with itself, or with values it already holds, gives what the
    list alone gives, and merging the additions into the result again
    changes nothing. *)
Theorem mergeAllowFromEntries_union (current : option (list Entry))
        (additions : list Entry) :
  let r := mergeAllowFromEntries current additions in
  let all := (fun v => JS.trim (ToString v)) <$> (orEmpty current ++ additions) in
  (forall x, x ∈ r <-> x ∈ all /\ x <> [])
  /\ Forall (fun x => x <> [] /\ trimmed x) r
  /\ NoDup r
  /\ r = firstOccurrences (filter (fun x => x <> []) all)
  /\ r = mergeAllowFromEntries current []
         ++ filter (fun x => x ∉ trimmedEntries (orEmpty current))
              (mergeAllowFromEntries None additions)
  /\ mergeAllowFromEntries current (orEmpty current)
     = mergeAllowFromEntries current []
  /\ (Forall (fun a => JS.trim (ToString a) = []
                       \/ JS.trim (ToString a) ∈ trimmedEntries (orEmpty current))
             additions ->
      r = mergeAllowFromEntries current [])
  /\ mergeAllowFromEntries (Some (Str <$> r)) additions = r
  /\ mergeAllowFromEntries (Some (Str <$> r)) (Str <$> r) = r.
Proof.
intros r all. split_and!.
- intros x. unfold r, all, mergeAllowFromEntries, trimmedEntries.
  by rewrite Set_from_elem, filterBoolean_elem.
- apply merge_wf.
- apply merge_NoDup.
- unfold r, all, mergeAllowFromEntries, trimmedEntries.
  by rewrite Set_from_firstOccurrences, filter_nonempty_truthy.
- apply merge_existing_first.
- apply merge_self.
- apply merge_present.
- apply merge_again.
- apply merge_allowlist_self; [apply merge_NoDup|apply merge_wf].
Qed.

Lemma normalizeOne_ext f g entry :
  (forall s, s <> WILDCARD -> f s = g s) ->
  normalizeOne (Some f) entry = normalizeOne (Some g) entry.
Proof.
intros Hfg. unfold normalizeOne. case_bool_decide as Hw; [done|].
by rewrite (Hfg entry Hw).
Qed.

Lemma normalize_elem entries normalizeEntry x :
  x ∈ normalizeAllowFromEntries entries normalizeEntry
  <-> x <> [] /\ exists t, t ∈ trimmedEntries entries /\ x = normalizeOne normalizeEntry t.
Proof.
unfold normalizeAllowFromEntries.
rewrite Set_from_elem, filterBoolean_elem, list_elem_of_fmap. split.
- intros [(t & -> & Ht) Hne]. eauto.
- intros [Hne (t & Ht & ->)]. eauto.
Qed.

(** C8. [normalizeAllowFromEntries] lets the wildcard through whatever the
    normalizer is: an entry that trims to ["*"] puts ["*"] in the output,
    and what the normalizer would answer on ["*"] never matters.  With a
    normalizer, the output holds ["*"] for the wildcard entries and, for
    every other trimmed entry, the normalizer's answer (trimmed) unless
    that answer is absent or empty, in which case nothing is put out for
    the entry.  The output has no duplicates. *)
Theorem normalizeAllowFromEntries_wildcard (entries : list Entry) :
  (forall normalizeEntry,
      (exists v, v ∈ entries /\ JS.trim (ToString v) = WILDCARD) ->
      WILDCARD ∈ normalizeAllowFromEntries entries normalizeEntry)
  /\ (forall f g,
         (forall s, s <> WILDCARD -> f s = g s) ->
         normalizeAllowFromEntries entries (Some f)
         = normalizeAllowFromEntries entries (Some g))
  /\ (forall f x,
         x ∈ normalizeAllowFromEntries entries (Some f)
         <-> x <> []
             /\ exists v, v ∈ entries
                /\ JS.trim (ToString v) <> []
                /\ ((JS.trim (ToString v) = WILDCARD /\ x = WILDCARD)
                    \/ (JS.trim (ToString v) <> WILDCARD
                        /\ exists value, f (JS.trim (ToString v)) = Some value
                                         /\ x = JS.trim value)))
  /\ (forall f,
         (forall v, v ∈ entries -> JS.trim (ToString v) <> WILDCARD ->
                    f (JS.trim (ToString v)) = None
                    \/ f (JS.trim (ToString v)) = Some []) ->
         forall x, x ∈ normalizeAllowFromEntries entries (Some f) -> x = WILDCARD)
  /\ (forall x, x ∈ normalizeAllowFromEntries entries None
                <-> x ∈ trimmedEntries entries)
  /\ (forall normalizeEntry, NoDup (normalizeAllowFromEntries entries normalizeEntry)).
Proof.
assert (Hchar : forall f x,
  x ∈ normalizeAllowFromEntries entries (Some f)
  <-> x <> []
      /\ exists v, v ∈ entries
         /\ JS.trim (ToString v) <> []
         /\ ((JS.trim (ToString v) = WILDCARD /\ x = WILDCARD)
             \/ (JS.trim (ToString v) <> WILDCARD
                 /\ exists value, f (JS.trim (ToString v)) = Some value
                                  /\ x = JS.trim value))).
{ intros f x. rewrite normalize_elem. split.
  - intros [Hne (t & [Ht (v & Hv & ->)]%trimmedEntries_elem & ->)].
    split; [done|]. exists v. split_and!; [done|done|].
    unfold normalizeOne in *. case_bool_decide as Hw; [by left|right].
    split; [done|]. destruct (f (JS.trim (ToString v))) as [value|]; [eauto|done].
  - intros [Hne (v & Hv & Ht & Hcase)]. split; [done|].
    exists (JS.trim (ToString v)). split; [apply trimmedEntries_elem; eauto|].
    unfold normalizeOne. destruct Hcase as [[Hw ->]|[Hw (value & Hf & ->)]].
    + by rewrite bool_decide_eq_true_2.
    + rewrite bool_decide_eq_false_2 by done. by rewrite Hf. }
split_and!.
- intros normalizeEntry (v & Hv & Hw). apply normalize_elem. split; [done|].
  exists WILDCARD. split.
  + apply trimmedEntries_elem. split; [done|]. by exists v.
  + unfold normalizeOne. by rewrite bool_decide_eq_true_2.
- intros f g Hfg. unfold normalizeAllowFromEntries. do 2 f_equal.
  apply list_fmap_ext. intros _ t _. by apply normalizeOne_ext.
- apply Hchar.
- intros f Hdrop x [Hne (v & Hv & Ht & Hcase)]%Hchar.
  destruct Hcase as [[_ ->]|[Hw (value & Hf & ->)]]; [done|].
  destruct (Hdrop v Hv Hw) as [Hnone|Hempty]; [congruence|].
  rewrite Hf in Hempty. by injection Hempty as ->.
- intros x. rewrite normalize_elem. split.
  + intros [Hne (t & Ht & ->)]. unfold normalizeOne.
    case_bool_decide as Hw; [by rewrite <- Hw|done].
  + intros Hx. pose proof Hx as [Hne _]%trimmedEntries_elem.
    split; [done|]. exists x. split; [done|]. unfold normalizeOne.
    by case_bool_decide.
- intros normalizeEntry. apply Set_from_NoDup.
Qed.

End PureHelpers.

(** ** The configuration patchers *)

Section Patchers.

Context `{Number} {V : Type}.
Implicit Types cfg : OpenClawConfig V.
Implicit Types channel accountId : jsstring.

Lemma channelOf_insert_eq cfg channel ch rest :
  channelOf {| channels := Some (<[channel := ch]> (spreadMap (channels cfg)));
               config_rest := rest |} channel = Some ch.
Proof. unfold channelOf. simpl. apply lookup_insert_eq. Qed.

Lemma channelOf_insert_ne cfg channel other ch rest :
  other <> channel ->
  channelOf {| channels := Some (<[channel := ch]> (spreadMap (channels cfg)));
               config_rest := rest |} other = channelOf cfg other.
Proof.
intros Hne. unfold channelOf. simpl. rewrite lookup_insert_ne by done.
unfold spreadMap. destruct (channels cfg); [done|apply lookup_empty].
Qed.

Lemma accountOf_spread (ch : option (ChannelConfig V)) accountId :
  spreadMap (accountsOf ch) !! accountId = accountOf ch accountId.
Proof.
unfold accountOf, spreadMap. destruct (accountsOf ch); [done|apply lookup_empty].
Qed.

Lemma addWildcard_unfold (allowFrom : option (list Entry)) :
  addWildcardAllowFrom allowFrom
  = trimmedEntries (orEmpty allowFrom)
    ++ (if decide (WILDCARD ∈ trimmedEntries (orEmpty allowFrom)) then [] else [WILDCARD]).
Proof.
unfold addWildcardAllowFrom, JS.includes.
destruct (decide (WILDCARD ∈ trimmedEntries (orEmpty allowFrom))) as [Hin|Hin].
- rewrite bool_decide_eq_true_2 by done. simpl. by rewrite app_nil_r.
- by rewrite bool_decide_eq_false_2 by done.
Qed.

Lemma addWildcard_elem allowFrom : WILDCARD ∈ addWildcardAllowFrom allowFrom.
Proof.
rewrite addWildcard_unfold. apply elem_of_app. case_decide; [by left|right].
apply list_elem_of_here.
Qed.

Lemma addWildcard_wf allowFrom :
  Forall (fun x => x <> [] /\ trimmed x) (addWildcardAllowFrom allowFrom).
Proof.
rewrite addWildcard_unfold. apply Forall_app. split; [apply trimmedEntries_wf|].
case_decide; constructor; [|constructor].
split; [done|]. split; intros c [= <-]; reflexivity.
Qed.

Lemma addWildcard_NoDup allowFrom :
  NoDup (trimmedEntries (orEmpty allowFrom)) -> NoDup (addWildcardAllowFrom allowFrom).
Proof.
intros Hnd. rewrite addWildcard_unfold. case_decide as Hin.
- by rewrite app_nil_r.
- apply NoDup_app. split_and!; [done| |apply NoDup_singleton].
  by intros x Hx ->%list_elem_of_singleton.
Qed.

(** C5 (as amended).  [setChannelDmPolicyWithAllowFrom] sets the channel's
    dmPolicy to the given value and keeps the channel's accounts and other
    fields, the sibling channels and the rest of the snapshot.  If and
    only if the policy is ["open"], the channel's allowFrom becomes the
    former entries as trimmed non-empty texts, in order, with ["*"]
    appended unless it is among them: it holds the wildcard and is
    duplicate-free whenever the trimmed former entries are.  For every
    other policy the allowFrom is the former one.  [["+1555"]] under
    ["open"] gives [["+1555","*"]], and is left as it is under
    ["pairing"]. *)
Theorem setChannelDmPolicyWithAllowFrom_spec cfg channel (dmPolicy : jsstring) :
  let next := setChannelDmPolicyWithAllowFrom cfg channel dmPolicy in
  let old := spreadChannel (channelOf cfg channel) in
  (exists ch,
      channelOf next channel = Some ch
      /\ channel_dmPolicy ch = Some dmPolicy
      /\ channel_allowFrom ch
         = (if decide (dmPolicy = OPEN)
            then Some (Str <$> addWildcardAllowFrom (channel_allowFrom old))
            else channel_allowFrom old)
      /\ channel_accounts ch = channel_accounts old
      /\ channel_rest ch = channel_rest old)
  /\ (forall other, other <> channel -> channelOf next other = channelOf cfg other)
  /\ config_rest next = config_rest cfg
  /\ (forall allowFrom,
         addWildcardAllowFrom allowFrom
         = trimmedEntries (orEmpty allowFrom)
           ++ (if decide (WILDCARD ∈ trimmedEntries (orEmpty allowFrom))
               then [] else [WILDCARD])
         /\ WILDCARD ∈ addWildcardAllowFrom allowFrom
         /\ Forall (fun x => x <> [] /\ trimmed x) (addWildcardAllowFrom allowFrom)
         /\ (NoDup (trimmedEntries (orEmpty allowFrom)) ->
             NoDup (addWildcardAllowFrom allowFrom)))
  /\ (channel_allowFrom old = Some [Str (lit "+1555")] ->
      allowFromOf (channelOf (setChannelDmPolicyWithAllowFrom cfg channel (lit "open")) channel)
      = Some [Str (lit "+1555"); Str (lit "*")]
      /\ allowFromOf (channelOf (setChannelDmPolicyWithAllowFrom cfg channel (lit "pairing")) channel)
         = Some [Str (lit "+1555")]).
Proof.
intros next old. split_and!.
- eexists. split; [apply channelOf_insert_eq|]. simpl. split_and!; try done.
  unfold old, allowFromOf, spreadChannel.
  destruct (channelOf cfg channel) as [ch|]; simpl; by case_bool_decide; case_decide.
- intros other Hne. by apply channelOf_insert_ne.
- done.
- intros allowFrom. split_and!;
    [apply addWildcard_unfold|apply addWildcard_elem|apply addWildcard_wf
    |apply addWildcard_NoDup].
- intros Hold. unfold setChannelDmPolicyWithAllowFrom.
  rewrite !channelOf_insert_eq. simpl.
  assert (Hallow : allowFromOf (channelOf cfg channel) = Some [Str (lit "+1555")]).
  { unfold old, allowFromOf, spreadChannel in *.
    by destruct (channelOf cfg channel). }
  fold old. rewrite Hallow, Hold. split; vm_compute; reflexivity.
Qed.

(** C6. [setAccountAllowFromForChannel] writes the list at the channel's
    top level when the account is the default-account sentinel, and under
    [accounts[accountId]] of the channel otherwise.  Everything else is as
    in the snapshot it was given: the rest of the snapshot, the sibling
    channels, the channel's dmPolicy and other fields, and either the
    channel's accounts (default account) or the channel's allowFrom, the
    sibling accounts and the other fields of the account written to.  The
    function is a pure expression of its arguments, so the snapshot it is
    given is the same value after the call. *)
Theorem setAccountAllowFromForChannel_frame (DEFAULT_ACCOUNT_ID : jsstring)
        cfg channel accountId (allowFrom : list jsstring) :
  let next := setAccountAllowFromForChannel DEFAULT_ACCOUNT_ID cfg channel accountId allowFrom in
  let old := spreadChannel (channelOf cfg channel) in
  config_rest next = config_rest cfg
  /\ (forall other, other <> channel -> channelOf next other = channelOf cfg other)
  /\ exists ch,
      channelOf next channel = Some ch
      /\ channel_dmPolicy ch = channel_dmPolicy old
      /\ channel_rest ch = channel_rest old
      /\ (accountId = DEFAULT_ACCOUNT_ID ->
          channel_allowFrom ch = Some (Str <$> allowFrom)
          /\ channel_accounts ch = channel_accounts old)
      /\ (accountId <> DEFAULT_ACCOUNT_ID ->
          channel_allowFrom ch = channel_allowFrom old
          /\ (exists acct,
                 accountOf (Some ch) accountId = Some acct
                 /\ account_allowFrom acct = Some (Str <$> allowFrom)
                 /\ account_rest acct
                    = account_rest (spreadAccount (accountOf (channelOf cfg channel) accountId)))
          /\ (forall other, other <> accountId ->
                accountOf (Some ch) other = accountOf (channelOf cfg channel) other)).
Proof.
intros next old. unfold next, setAccountAllowFromForChannel.
case_bool_decide as Hdef.
- split_and!; [done|by intros; apply channelOf_insert_ne|].
  eexists. split; [apply channelOf_insert_eq|]. simpl. split_and!; done.
- split_and!; [done|by intros; apply channelOf_insert_ne|].
  eexists. split; [apply channelOf_insert_eq|]. simpl.
  split; [done|]. split; [done|]. split; [done|].
  intros _. split; [done|]. split.
  + eexists. split; [unfold accountOf, accountsOf; simpl; apply lookup_insert_eq|].
    done.
  + intros other Hne. unfold accountOf at 1, accountsOf at 1. simpl.
    rewrite lookup_insert_ne by done. apply accountOf_spread.
Qed.

End Patchers.

(** ** Account resolution *)

Section Accounts.

Context {Cfg : Type} (normalizeAccountId : jsstring -> jsstring).
Implicit Types params : ConfigureParams.t Cfg.

(** C7. With a non-blank override, [resolveAccountIdForConfigure] is the
    program that returns the trimmed and normalized override at once: it
    never reaches the account prompt, whether prompting is permitted or
    not.  Without an override and with prompting not permitted it returns
    the default identifier as it is.  [resolveOnboardingAccountId] returns
    the normalized account identifier when that is non-blank (the
    normalizer is given it as supplied; for a normalizer that ignores
    surrounding white space the answer is the trimmed identifier,
    normalized) and the default, unchanged, otherwise. *)
Theorem account_resolution :
  (forall params o,
      ConfigureParams.accountOverride params = Some o -> JS.trim o <> [] ->
      resolveAccountIdForConfigure normalizeAccountId params
      = Ret (normalizeAccountId (JS.trim o))
      /\ forall script n,
          run accountPrompt (resolveAccountIdForConfigure normalizeAccountId params)
              (script, n)
          = Returned (normalizeAccountId (JS.trim o)) (script, n))
  /\ (forall params,
         ConfigureParams.accountOverride params = None ->
         ConfigureParams.shouldPromptAccountIds params = false ->
         resolveAccountIdForConfigure normalizeAccountId params
         = Ret (ConfigureParams.defaultAccountId params))
  /\ (forall a d,
         JS.trim a <> [] ->
         resolveOnboardingAccountId normalizeAccountId (Some a) d
         = normalizeAccountId a)
  /\ ((forall s, normalizeAccountId s = normalizeAccountId (JS.trim s)) ->
      forall a d,
        JS.trim a <> [] ->
        resolveOnboardingAccountId normalizeAccountId (Some a) d
        = normalizeAccountId (JS.trim a))
  /\ (forall a d,
         JS.trim a = [] ->
         resolveOnboardingAccountId normalizeAccountId (Some a) d = d)
  /\ (forall d, resolveOnboardingAccountId normalizeAccountId None d = d).
Proof.
assert (Hnon : forall a d, JS.trim a <> [] ->
  resolveOnboardingAccountId normalizeAccountId (Some a) d = normalizeAccountId a).
{ intros a d Ha. unfold resolveOnboardingAccountId.
  by rewrite (proj2 (truthy_true _) Ha). }
assert (Hover : forall params o,
  ConfigureParams.accountOverride params = Some o -> JS.trim o <> [] ->
  resolveAccountIdForConfigure normalizeAccountId params
  = Ret (normalizeAccountId (JS.trim o))).
{ intros params o Ho Hne. unfold resolveAccountIdForConfigure. rewrite Ho. simpl.
  rewrite (proj2 (truthy_true _) Hne). simpl. by rewrite andb_false_r. }
split_and!.
- intros params o Ho Hne. split; [by apply Hover|].
  intros script n. by rewrite (Hover params o Ho Hne).
- intros params Ho Hp. unfold resolveAccountIdForConfigure. by rewrite Ho, Hp.
- apply Hnon.
- intros Hnorm a d Ha. rewrite Hnon by done. apply Hnorm.
- intros a d Ha. unfold resolveOnboardingAccountId. by rewrite Ha.
- done.
Qed.

End Accounts.

(** ** The allowlist resolution protocol *)

Section Protocol.

Context `{Number} {R : Type}.
Implicit Types params : Params.
Implicit Types w : World R.

(** C1. Directory mode.  A round whose results are not all acceptable
    shows the notice naming the inputs of exactly the unacceptable
    results, joined by [", "], and the loop goes on with the rest of the
    script in the state it started in, keeping nothing of the round.  A
    round whose results are all acceptable returns the existing allowlist
    merged with that round's identifiers.  Whenever the loop returns, it
    does so from the first round whose directory call is fulfilled with
    only acceptable results, every round before it having failed, and the
    list returned is the merge of the existing allowlist with the
    identifiers of that round alone. *)
Theorem directory_round_all_or_nothing params tok :
  directoryMode params tok ->
  (forall w entry ts results rs,
      texts w = entry :: ts ->
      resolutions w = Fulfilled results :: rs ->
      unacceptable results <> [] ->
      let w' :=
        after w ts rs
          [call (prompter_text (textOptions params));
           call (resolveEntries tok (parseInputs params entry));
           call (prompter_note
                   (lit "Could not resolve: "
                    ++ JS.join (lit ", ")
                         (AllowFromResolution.input <$> unacceptable results))
                   (label params))] in
      run wizard (round params) w = Returned None w'
      /\ promptResolvedAllowFrom params w = promptResolvedAllowFrom params w')
  /\ (forall w entry ts results rs,
         texts w = entry :: ts ->
         resolutions w = Fulfilled results :: rs ->
         Forall (fun res => acceptable res = true) results ->
         promptResolvedAllowFrom params w
         = Returned
             (mergeAllowFromEntries (Some (existing params))
                (Str <$> (idAsString <$> results)))
             (after w ts rs
                [call (prompter_text (textOptions params));
                 call (resolveEntries tok (parseInputs params entry))]))
  /\ (forall w r w',
         promptResolvedAllowFrom params w = Returned r w' ->
         exists failed failedRes entry ts results rs,
           texts w = failed ++ entry :: ts
           /\ resolutions w = failedRes ++ Fulfilled results :: rs
           /\ length failed = length failedRes
           /\ Forall failedResolution failedRes
           /\ Forall (fun res => acceptable res = true) results
           /\ r = mergeAllowFromEntries (Some (existing params))
                    (Str <$> (idAsString <$> results))
           /\ w' = after w ts rs
                     (concat (zip_with (directoryRetryCalls params tok) failed failedRes)
                      ++ directoryReturnCalls params tok entry)).
Proof.
intros Hmode. split_and!.
- intros w entry ts results rs Ht Hr Hun w'.
  pose proof (run_round_unresolved params tok w entry ts results rs Hmode Ht Hr Hun)
    as Hrun.
  split; [exact Hrun|]. by apply (loop_retry params w entry ts rs _ Ht).
- intros w entry ts results rs Ht Hr Hok. apply loop_return.
  apply run_round_resolved; [done|done|done|]. by apply unacceptable_nil.
- intros w r w' Hret.
  destruct (directory_loop_sound params tok w r w' Hmode Hret)
    as (failed & failedRes & entry & ts & results & rs
        & Ht & Hrs & Hlen & Hfailed & Hok & Hr & Hw).
  exists failed, failedRes, entry, ts, results, rs.
  split_and!; try done. by apply unacceptable_nil.
Qed.

Lemma resolveCallsOf_app (l1 l2 : list (sigT (WizardE R))) :
  resolveCallsOf (l1 ++ l2) = resolveCallsOf l1 ++ resolveCallsOf l2.
Proof. unfold resolveCallsOf. apply omap_app. Qed.

Lemma notesOf_app (l1 l2 : list (sigT (WizardE R))) :
  notesOf (l1 ++ l2) = notesOf l1 ++ notesOf l2.
Proof. unfold notesOf. apply omap_app. Qed.

(** C2. Directory mode.  When the directory call rejects, the round shows
    ["Failed to resolve usernames. Try again."] under the label and the
    loop goes on with the rest of the script; the reason of the rejection
    appears nowhere in what follows.  If the first call rejects and the
    second is fulfilled with only acceptable results, the loop returns the
    existing allowlist merged with the identifiers of the second call,
    having called the resolver exactly twice and shown that one notice. *)
Theorem resolver_rejection_recovered params tok :
  directoryMode params tok ->
  (forall w entry ts reason rs,
      texts w = entry :: ts ->
      resolutions w = Rejected reason :: rs ->
      let w' :=
        after w ts rs
          [call (prompter_text (textOptions params));
           call (resolveEntries tok (parseInputs params entry));
           call (prompter_note (lit "Failed to resolve usernames. Try again.")
                   (label params))] in
      run wizard (round params) w = Returned None w'
      /\ promptResolvedAllowFrom params w = promptResolvedAllowFrom params w')
  /\ (forall w entry1 entry2 ts reason results rs,
         texts w = entry1 :: entry2 :: ts ->
         resolutions w = Rejected reason :: Fulfilled results :: rs ->
         Forall (fun res => acceptable res = true) results ->
         exists w',
           promptResolvedAllowFrom params w
           = Returned
               (mergeAllowFromEntries (Some (existing params))
                  (Str <$> (idAsString <$> results))) w'
           /\ resolveCallsOf (calls w')
              = resolveCallsOf (calls w)
                ++ [(tok, parseInputs params entry1); (tok, parseInputs params entry2)]
           /\ notesOf (calls w')
              = notesOf (calls w)
                ++ [(lit "Failed to resolve usernames. Try again.", label params)]
           /\ texts w' = ts
           /\ resolutions w' = rs).
Proof.
intros Hmode. split.
- intros w entry ts reason rs Ht Hr w'.
  pose proof (run_round_rejected params tok w entry ts reason rs Hmode Ht Hr) as Hrun.
  split; [exact Hrun|]. by apply (loop_retry params w entry ts rs _ Ht).
- intros w entry1 entry2 ts reason results rs Ht Hr Hok.
  eexists. split.
  + apply (directory_loop_returns params tok [entry1] w [Rejected reason]
             entry2 ts results rs); try done.
    * by repeat constructor.
    * by apply unacceptable_nil.
  + simpl. rewrite resolveCallsOf_app, notesOf_app. done.
Qed.

(** C3. Local mode.  A round in which every candidate parses to a
    non-empty identifier returns the existing allowlist merged with the
    parsed identifiers, without any directory call.  A round in which
    some candidate does not parse shows the invalid-without-token notice
    under the label and the loop goes on with the rest of the script in
    the state it started in.  Whenever the loop returns in local mode it
    does so from the first round whose candidates all parse, with the
    merge of the existing allowlist and that round's identifiers. *)
Theorem local_round_all_or_nothing params :
  localMode params ->
  (forall w entry ts,
      texts w = entry :: ts ->
      parsesAll params (parseInputs params entry) ->
      promptResolvedAllowFrom params w
      = Returned
          (mergeAllowFromEntries (Some (existing params))
             (Str <$> parsedIds params (parseInputs params entry)))
          (after w ts (resolutions w) [call (prompter_text (textOptions params))]))
  /\ (forall w entry ts,
         texts w = entry :: ts ->
         ~ parsesAll params (parseInputs params entry) ->
         let w' :=
           after w ts (resolutions w)
             [call (prompter_text (textOptions params));
              call (prompter_note (invalidWithoutTokenNote params) (label params))] in
         run wizard (round params) w = Returned None w'
         /\ promptResolvedAllowFrom params w = promptResolvedAllowFrom params w')
  /\ (forall w r w',
         promptResolvedAllowFrom params w = Returned r w' ->
         exists failed entry ts,
           texts w = failed ++ entry :: ts
           /\ Forall (fun e => ~ parsesAll params (parseInputs params e)) failed
           /\ parsesAll params (parseInputs params entry)
           /\ r = mergeAllowFromEntries (Some (existing params))
                    (Str <$> parsedIds params (parseInputs params entry))
           /\ w' = after w ts (resolutions w)
                     (concat (replicate (length failed) (localRetryCalls params))
                      ++ localReturnCalls params)).
Proof.
intros Hlocal. split_and!.
- intros w entry ts Ht Hok. apply loop_return. by apply run_round_local_accept.
- intros w entry ts Ht Hno w'.
  pose proof (run_round_local_retry params w entry ts Hlocal Ht Hno) as Hrun.
  split; [exact Hrun|]. by apply (loop_retry params w entry ts _ _ Ht).
- intros w r w' Hret. by apply local_loop_sound.
Qed.

(** C10. No round is checked for having produced a candidate, nor a
    directory answer for holding one result per candidate.  In local mode
    an input that parses to no candidate returns the existing allowlist
    merged with nothing.  In directory mode any answer without an
    unacceptable result, whatever its length and whatever the candidates
    were, returns the existing allowlist merged with the identifiers the
    answer holds; the empty answer returns it merged with nothing.
    Merging with nothing leaves exactly the values of the existing
    allowlist. *)
Theorem empty_round_succeeds params :
  (localMode params ->
   forall w entry ts,
     texts w = entry :: ts ->
     parseInputs params entry = [] ->
     promptResolvedAllowFrom params w
     = Returned (mergeAllowFromEntries (Some (existing params)) [])
         (after w ts (resolutions w) [call (prompter_text (textOptions params))]))
  /\ (forall tok,
         directoryMode params tok ->
         forall w entry ts results rs,
           texts w = entry :: ts ->
           resolutions w = Fulfilled results :: rs ->
           Forall (fun res => acceptable res = true) results ->
           promptResolvedAllowFrom params w
           = Returned
               (mergeAllowFromEntries (Some (existing params))
                  (Str <$> (idAsString <$> results)))
               (after w ts rs
                  [call (prompter_text (textOptions params));
                   call (resolveEntries tok (parseInputs params entry))]))
  /\ (forall tok,
         directoryMode params tok ->
         forall w entry ts rs,
           texts w = entry :: ts ->
           resolutions w = Fulfilled [] :: rs ->
           promptResolvedAllowFrom params w
           = Returned (mergeAllowFromEntries (Some (existing params)) [])
               (after w ts rs
                  [call (prompter_text (textOptions params));
                   call (resolveEntries tok (parseInputs params entry))]))
  /\ (forall x,
         x ∈ mergeAllowFromEntries (Some (existing params)) []
         <-> x ∈ trimmedEntries (existing params)).
Proof.
split_and!.
- intros Hlocal w entry ts Ht Hparts. apply loop_return.
  pose proof (run_round_local_accept params w entry ts Hlocal Ht) as Hrun.
  rewrite Hparts in Hrun. apply Hrun. constructor.
- intros tok Hmode w entry ts results rs Ht Hr Hok. apply loop_return.
  apply run_round_resolved; [done|done|done|]. by apply unacceptable_nil.
- intros tok Hmode w entry ts rs Ht Hr. apply loop_return.
  by apply (run_round_resolved params tok w entry ts [] rs).
- intros x. rewrite merge_nil. apply Set_from_elem.
Qed.

End Protocol.

(** ** The properties at the inputs of the test suite *)

Lemma splitOnboardingEntries_tokens_witness :
  splitOnboardingEntries
    (interleave (lit " a") [(lit ",;", lit " b "); ([0x0A], lit "c")])
  = [lit "a"; lit "b"; lit "c"].
Proof.
rewrite (proj1 splitOnboardingEntries_tokens).
- reflexivity.
- repeat first [discriminate | constructor].
- repeat first [discriminate | constructor].
Defined.

Lemma mergeAllowFromEntries_union_witness :
  mergeAllowFromEntries (Some mixedExisting) mixedAdditions
  = mergeAllowFromEntries (Some mixedExisting) [].
Proof.
destruct (mergeAllowFromEntries_union (Some mixedExisting) mixedAdditions)
  as (_ & _ & _ & _ & _ & _ & Hpresent & _).
apply Hpresent.
apply Forall_cons_2; [right|apply Forall_cons_2; [left|apply Forall_cons_2; [right|]]].
- vm_compute. apply list_elem_of_here.
- reflexivity.
- vm_compute. apply list_elem_of_further, list_elem_of_here.
- apply Forall_nil_2.
Defined.

Lemma normalizeAllowFromEntries_wildcard_witness :
  WILDCARD ∈ normalizeAllowFromEntries normalizeExample (Some startsWithPlusOne).
Proof.
apply (proj1 (normalizeAllowFromEntries_wildcard normalizeExample)).
exists (Str (lit "*")). split; [|reflexivity].
apply list_elem_of_further, list_elem_of_here.
Defined.

Lemma setChannelDmPolicyWithAllowFrom_spec_witness :
  allowFromOf (channelOf
    (setChannelDmPolicyWithAllowFrom
       (setAccountAllowFromForChannel (lit "default") signalExample
          (lit "signal") (lit "default") [lit "+1555"])
       (lit "signal") (lit "open")) (lit "signal"))
  = Some [Str (lit "+1555"); Str (lit "*")]
  /\ allowFromOf (channelOf
       (setChannelDmPolicyWithAllowFrom
          (setAccountAllowFromForChannel (lit "default") signalExample
             (lit "signal") (lit "default") [lit "+1555"])
          (lit "signal") (lit "pairing")) (lit "signal"))
     = Some [Str (lit "+1555")].
Proof.
destruct (setChannelDmPolicyWithAllowFrom_spec
            (setAccountAllowFromForChannel (lit "default") signalExample
               (lit "signal") (lit "default") [lit "+1555"])
            (lit "signal") (lit "open"))
  as (_ & _ & _ & _ & Hexample).
apply Hexample. reflexivity.
Defined.

(** C5, as the specification words it, fails on a channel whose allowFrom
    is [["a"," a"]]: under ["open"] the list written is [["a","a","*"]],
    which is not duplicate-free. *)
Lemma setChannelDmPolicyWithAllowFrom_keeps_duplicates :
  allowFromOf (channelOf
    (setChannelDmPolicyWithAllowFrom duplicatesExample (lit "signal") (lit "open"))
    (lit "signal"))
  = Some (Str <$> [lit "a"; lit "a"; lit "*"])
  /\ ~ NoDup [lit "a"; lit "a"; lit "*"].
Proof.
split.
- reflexivity.
- intros Hnd. apply NoDup_cons in Hnd as [Hnotin _]. apply Hnotin.
  apply list_elem_of_here.
Qed.

Lemma setAccountAllowFromForChannel_frame_witness :
  (exists ch,
      channelOf (setAccountAllowFromForChannel (lit "default") signalExample
                   (lit "signal") (lit "alt") [lit "alt-new"]) (lit "signal")
      = Some ch
      /\ channel_allowFrom ch = Some [Str (lit "default-old")]
      /\ exists acct,
          accountOf (Some ch) (lit "alt") = Some acct
          /\ account_allowFrom acct = Some [Str (lit "alt-new")]
          /\ account_rest acct = {[ lit "enabled" := true ]}).
Proof.
destruct (setAccountAllowFromForChannel_frame (lit "default") signalExample
            (lit "signal") (lit "alt") [lit "alt-new"])
  as (_ & _ & ch & Hch & _ & _ & _ & Hother).
destruct Hother as (Hallow & (acct & Hacct & Hlist & Hrest) & _); [discriminate|].
exists ch. split; [exact Hch|]. split; [exact Hallow|].
exists acct. split; [exact Hacct|]. split; [exact Hlist|]. exact Hrest.
Defined.

Lemma account_resolution_witness :
  resolveOnboardingAccountId dashedLowerCase (Some (lit " Work Account ")) (lit "default")
  = lit "work-account".
Proof.
destruct (account_resolution (Cfg := unit) dashedLowerCase)
  as (_ & _ & _ & Htrimmed & _).
rewrite Htrimmed.
- reflexivity.
- intros s. unfold dashedLowerCase. by rewrite trim_idemp.
- discriminate.
Defined.

Lemma directoryExample_mode : directoryMode directoryExample (lit "xoxb-test").
Proof. split; [reflexivity|discriminate]. Defined.

Lemma localExample_mode : localMode localExample.
Proof. reflexivity. Defined.

Lemma directory_round_all_or_nothing_witness :
  promptResolvedAllowFrom directoryExample
    (scripted ["alice,carol"; "bob"]
       [Fulfilled [resolution "alice" false None; resolution "carol" true (Some "U999")];
        Fulfilled [resolution "bob" true (Some "U123")]])
  = Returned [lit "U123"]
      (after (scripted [] [])  [] []
         [call (prompter_text (textOptions directoryExample));
          call (resolveEntries (lit "xoxb-test") [lit "alice"; lit "carol"]);
          call (prompter_note (lit "Could not resolve: alice") (lit "allowlist"));
          call (prompter_text (textOptions directoryExample));
          call (resolveEntries (lit "xoxb-test") [lit "bob"])]).
Proof.
destruct (directory_round_all_or_nothing (R := string) directoryExample
            (lit "xoxb-test") directoryExample_mode)
  as (Hretry & Hreturn & _).
destruct (Hretry
            (scripted ["alice,carol"; "bob"]
               [Fulfilled [resolution "alice" false None;
                           resolution "carol" true (Some "U999")];
                Fulfilled [resolution "bob" true (Some "U123")]])
            _ _ _ _ eq_refl eq_refl ltac:(vm_compute; discriminate))
  as [_ Hloop].
rewrite Hloop.
erewrite Hreturn; [|reflexivity|reflexivity|repeat constructor].
reflexivity.
Defined.

Lemma resolver_rejection_recovered_witness :
  exists w',
    promptResolvedAllowFrom directoryExample
      (scripted ["alice"; "bob"]
         [Rejected "network"; Fulfilled [resolution "bob" true (Some "U234")]])
    = Returned [lit "U234"] w'
    /\ resolveCallsOf (calls w')
       = [(lit "xoxb-test", [lit "alice"]); (lit "xoxb-test", [lit "bob"])]
    /\ notesOf (calls w')
       = [(lit "Failed to resolve usernames. Try again.", lit "allowlist")].
Proof.
destruct (proj2 (resolver_rejection_recovered (R := string) directoryExample
                   (lit "xoxb-test") directoryExample_mode)
            (scripted ["alice"; "bob"]
               [Rejected "network"; Fulfilled [resolution "bob" true (Some "U234")]])
            (lit "alice") (lit "bob") [] "network"%string
            [resolution "bob" true (Some "U234")] [] eq_refl eq_refl
            ltac:(repeat constructor))
  as (w' & Hret & Hcalls & Hnotes & _).
exists w'. split; [exact Hret|]. split; [exact Hcalls|exact Hnotes].
Defined.

Lemma local_round_all_or_nothing_witness :
  promptResolvedAllowFrom localExample (scripted ["@alice,123"; "123"] [])
  = Returned [lit "111"; lit "123"]
      (after (scripted [] []) [] []
         [call (prompter_text (textOptions localExample));
          call (prompter_note (lit "ids only") (lit "allowlist"));
          call (prompter_text (textOptions localExample))]).
Proof.
destruct (local_round_all_or_nothing (R := string) localExample localExample_mode)
  as (Hreturn & Hretry & _).
destruct (Hretry (scripted ["@alice,123"; "123"] []) _ _ eq_refl
            ltac:(intros Hall; apply Forall_cons in Hall as [Hhd _];
                  vm_compute in Hhd; discriminate))
  as [_ Hloop].
rewrite Hloop.
erewrite Hreturn; [|reflexivity|repeat constructor].
reflexivity.
Defined.

Lemma empty_round_succeeds_witness :
  promptResolvedAllowFrom localExample (scripted [", ,"; "123"] [])
  = Returned [lit "111"]
      (after (scripted [] []) [lit "123"] []
         [call (prompter_text (textOptions localExample))])
  /\ promptResolvedAllowFrom directoryExample
       (scripted ["alice,bob"] [Fulfilled [resolution "bob" true (Some "U123")]])
     = Returned [lit "U123"]
         (after (scripted [] []) [] []
            [call (prompter_text (textOptions directoryExample));
             call (resolveEntries (lit "xoxb-test") [lit "alice"; lit "bob"])])
  /\ promptResolvedAllowFrom directoryExample (scripted ["alice,bob"] [Fulfilled []])
     = Returned []
         (after (scripted [] []) [] []
            [call (prompter_text (textOptions directoryExample));
             call (resolveEntries (lit "xoxb-test") [lit "alice"; lit "bob"])]).
Proof.
destruct (empty_round_succeeds (R := string) localExample) as (Hlocal & _).
destruct (empty_round_succeeds (R := string) directoryExample)
  as (_ & Hshort & Hnone & _).
split_and!.
- erewrite (Hlocal localExample_mode); [|reflexivity|reflexivity].
  reflexivity.
- erewrite (Hshort _ directoryExample_mode);
    [|reflexivity|reflexivity|repeat constructor].
  reflexivity.
- erewrite (Hnone _ directoryExample_mode); [|reflexivity|reflexivity].
  reflexivity.
Defined.

(** ** Further properties of the set merger and the normalizer *)

Section MoreMerge.

Context `{Number}.
Implicit Types l : list Entry.

Lemma Set_from_absorb (l1 l2 : list jsstring) :
  JS.Set_from (JS.Set_from l1 ++ l2) = JS.Set_from (l1 ++ l2).
Proof.
rewrite !Set_from_app, Set_from_idemp. do 2 f_equal.
apply list_filter_iff. intros y. by rewrite Set_from_elem.
Qed.

(** X1. Merging in two steps is merging at once: the additions [b] merged
    into the result of merging [a] give what [a] followed by [b] gives. *)
Theorem mergeAllowFromEntries_compose (current : option (list Entry)) (a b : list Entry) :
  mergeAllowFromEntries (Some (Str <$> mergeAllowFromEntries current a)) b
  = mergeAllowFromEntries current (a ++ b).
Proof.
unfold mergeAllowFromEntries at 1. simpl.
rewrite trimmedEntries_app, trimmedEntries_Str by apply merge_wf.
unfold mergeAllowFromEntries.
by rewrite Set_from_absorb, <- trimmedEntries_app, <- app_assoc.
Qed.

(** X2. The merge is a union: exchanging the existing entries and the
    additions gives the same values, in another order. *)
Theorem mergeAllowFromEntries_exchange (a b : list Entry) :
  mergeAllowFromEntries (Some a) b ≡ₚ mergeAllowFromEntries (Some b) a.
Proof.
apply NoDup_Permutation; [apply merge_NoDup|apply merge_NoDup|].
intros x. rewrite !merge_elem. simpl. split.
- intros [Hne (v & Hv & ->)]. split; [done|]. exists v. split; [|done].
  apply elem_of_app. apply elem_of_app in Hv. tauto.
- intros [Hne (v & Hv & ->)]. split; [done|]. exists v. split; [|done].
  apply elem_of_app. apply elem_of_app in Hv. tauto.
Qed.

Lemma normalizeOne_None (t : jsstring) : normalizeOne None t = t.
Proof. unfold normalizeOne. by case_bool_decide. Qed.

(** X3. Without a normalizer, [normalizeAllowFromEntries] is the merge of
    the entries into nothing, and equally the merge of nothing into
    them. *)
Theorem normalizeAllowFromEntries_without_normalizer (entries : list Entry) :
  normalizeAllowFromEntries entries None = mergeAllowFromEntries None entries
  /\ normalizeAllowFromEntries entries None = mergeAllowFromEntries (Some entries) [].
Proof.
assert (Heq : normalizeAllowFromEntries entries None
              = JS.Set_from (trimmedEntries entries)).
{ unfold normalizeAllowFromEntries. f_equal.
  rewrite (list_fmap_ext (normalizeOne None) id (trimmedEntries entries))
    by (intros; apply normalizeOne_None).
  rewrite list_fmap_id. apply filterBoolean_id.
  eapply Forall_impl; [apply trimmedEntries_wf|]. by intros x [? _]. }
split; [done|]. by rewrite Heq, merge_nil.
Qed.

Lemma trimmedEntries_wildcard : trimmedEntries [Str WILDCARD] = [WILDCARD].
Proof. reflexivity. Qed.

(** X4. [addWildcardAllowFrom] is the merge of the wildcard into the list,
    short of the removal of duplicates: de-duplicated, its result is that
    merge, and it is that merge as it stands when the trimmed entries hold
    no duplicates. *)
Theorem addWildcardAllowFrom_merge (allowFrom : option (list Entry)) :
  JS.Set_from (addWildcardAllowFrom allowFrom)
  = mergeAllowFromEntries allowFrom [Str WILDCARD]
  /\ (NoDup (trimmedEntries (orEmpty allowFrom)) ->
      addWildcardAllowFrom allowFrom = mergeAllowFromEntries allowFrom [Str WILDCARD]).
Proof.
assert (Hset : JS.Set_from (addWildcardAllowFrom allowFrom)
               = mergeAllowFromEntries allowFrom [Str WILDCARD]).
{ unfold mergeAllowFromEntries.
  rewrite trimmedEntries_app, trimmedEntries_wildcard, addWildcard_unfold.
  case_decide as Hin; [|done].
  rewrite app_nil_r. symmetry. apply Set_from_app_present. by repeat constructor. }
split; [done|]. intros Hnd. rewrite <- Hset. symmetry.
by apply Set_from_NoDup_id, addWildcard_NoDup.
Qed.

Lemma addWildcard_twice (allowFrom : option (list Entry)) :
  addWildcardAllowFrom (Some (Str <$> addWildcardAllowFrom allowFrom))
  = addWildcardAllowFrom allowFrom.
Proof.
rewrite (addWildcard_unfold (Some _)). simpl.
rewrite trimmedEntries_Str by apply addWildcard_wf.
rewrite decide_True by apply addWildcard_elem. apply app_nil_r.
Qed.

(** X5. Adding the wildcard twice is adding it once, and what comes out
    is a fixed point of the merge: merged into nothing it is the
    de-duplicated list itself. *)
Theorem addWildcardAllowFrom_idempotent (allowFrom : option (list Entry)) :
  addWildcardAllowFrom (Some (Str <$> addWildcardAllowFrom allowFrom))
  = addWildcardAllowFrom allowFrom
  /\ mergeAllowFromEntries (Some (Str <$> addWildcardAllowFrom allowFrom)) []
     = JS.Set_from (addWildcardAllowFrom allowFrom).
Proof.
split; [apply addWildcard_twice|].
rewrite merge_nil. simpl. by rewrite trimmedEntries_Str by apply addWildcard_wf.
Qed.

End MoreMerge.

(** ** Further properties of the entry parser *)

Section MoreSplit.

Implicit Types s seg pad : jsstring.

Lemma dropWhile_app_all {A} (p : A -> bool) (k l : list A) :
  Forall (fun x => p x = true) k -> JS.dropWhile p (k ++ l) = JS.dropWhile p l.
Proof. induction 1 as [|x k Hx _ IH]; [done|]. simpl. by rewrite Hx. Qed.

Lemma trim_pad pad s : blank pad -> JS.trim (pad ++ s) = JS.trim s.
Proof.
intros Hpad. unfold JS.trim, JS.trimStart. by rewrite dropWhile_app_all.
Qed.

Lemma trim_nil_iff s : JS.trim s = [] <-> blank s.
Proof.
split.
- intros Hs. destruct (trim_split s) as (pre & post & Heq & Hpre & Hpost).
  rewrite Hs in Heq. rewrite Heq. unfold blank. by apply Forall_app.
- intros Hs. rewrite <- (app_nil_r s). by rewrite trim_pad.
Qed.

Lemma tokens_app (l1 l2 : list jsstring) : tokens (l1 ++ l2) = tokens l1 ++ tokens l2.
Proof. unfold tokens. by rewrite fmap_app, filterBoolean_app. Qed.

Lemma tokens_nil_iff (l : list jsstring) : tokens l = [] <-> Forall blank l.
Proof.
induction l as [|seg l IH]; [by split|].
rewrite tokens_cons, Forall_cons, <- IH, <- trim_nil_iff.
unfold tokens at 1. simpl. destruct (JS.trim seg) as [|c t] eqn:Hseg.
- unfold JS.filterBoolean. rewrite filter_cons_False by (simpl; tauto). simpl. tauto.
- unfold JS.filterBoolean. rewrite filter_cons_True by done. simpl.
  split; [done|]. by intros [? _].
Qed.

Lemma interleave_app seg0 rest sepRun seg rest' :
  interleave seg0 (rest ++ (sepRun, seg) :: rest')
  = interleave seg0 rest ++ sepRun ++ interleave seg rest'.
Proof.
revert seg0. induction rest as [|[r0 s0] rest IH]; intros seg0; simpl; [done|].
by rewrite IH, <- !app_assoc.
Qed.

Lemma Forall_interleave (P : N -> Prop) seg0 rest :
  Forall P (interleave seg0 rest)
  <-> Forall P seg0 /\ Forall (fun p => Forall P p.1 /\ Forall P p.2) rest.
Proof.
revert seg0. induction rest as [|[r0 s0] rest IH]; intros seg0; simpl.
- split; [by intros; split|by intros [? _]].
- rewrite !Forall_app, IH, Forall_cons. simpl. tauto.
Qed.

Lemma splitOnboardingEntries_interleave seg0 rest :
  separatorFree seg0 ->
  Forall (fun p => separatorRun p.1 /\ separatorFree p.2) rest ->
  splitOnboardingEntries (interleave seg0 rest) = tokens (seg0 :: rest.*2).
Proof. intros Hseg Hrest. by apply tokens_split_interleave. Qed.

Lemma interleave_prefix pad seg rest :
  interleave (pad ++ seg) rest = pad ++ interleave seg rest.
Proof. destruct rest as [|[r0 s0] rest]; simpl; [done|]. by rewrite <- app_assoc. Qed.

Lemma join_interleave sepRun pad (t0 : jsstring) (ts : list jsstring) :
  JS.join (sepRun ++ pad) (t0 :: ts)
  = interleave t0 ((fun t => (sepRun, pad ++ t)) <$> ts).
Proof.
revert t0. induction ts as [|t1 ts IH]; intros t0; [done|].
change (JS.join (sepRun ++ pad) (t0 :: t1 :: ts))
  with (t0 ++ (sepRun ++ pad) ++ JS.join (sepRun ++ pad) (t1 :: ts)).
rewrite IH, fmap_cons. simpl. by rewrite interleave_prefix, <- !app_assoc.
Qed.

Lemma tokens_wf_id (toks : list jsstring) :
  Forall (fun t => t <> [] /\ trimmed t /\ separatorFree t) toks -> tokens toks = toks.
Proof.
induction 1 as [|t toks (Hne & Htr & _) _ IH]; [done|].
rewrite tokens_cons, IH. unfold tokens. simpl. rewrite (trim_of_trimmed t Htr).
by rewrite filterBoolean_id by (by repeat constructor).
Qed.

Lemma splitOnboardingEntries_join sepRun pad (toks : list jsstring) :
  separatorRun sepRun -> blank pad -> separatorFree pad ->
  Forall (fun t => t <> [] /\ trimmed t /\ separatorFree t) toks ->
  splitOnboardingEntries (JS.join (sepRun ++ pad) toks) = toks.
Proof.
intros Hrun Hblank Hfree Htoks. destruct toks as [|t0 ts]; [done|].
apply Forall_cons in Htoks as [(Hne0 & Htr0 & Hfree0) Hts].
rewrite join_interleave, splitOnboardingEntries_interleave; [|done|].
- rewrite tokens_cons, <- list_fmap_compose. unfold tokens at 1. simpl.
  rewrite (trim_of_trimmed t0 Htr0), filterBoolean_id by (by repeat constructor).
  simpl. f_equal. rewrite <- (tokens_wf_id ts Hts) at 2. unfold tokens.
  f_equal. rewrite <- list_fmap_compose. apply list_fmap_ext.
  intros _ t _. simpl. by apply trim_pad.
- apply Forall_fmap. eapply Forall_impl; [exact Hts|].
  intros t (_ & _ & Ht). simpl. split; [done|]. by apply Forall_app.
Qed.

(** X6. Joining tokens and splitting again gives the tokens back: for
    non-empty, trimmed tokens free of separators, joined by a separator
    run that white space may follow (such as [", "]),
    [splitOnboardingEntries] of the joined text is the tokens; so
    splitting, joining with [","] and splitting again changes nothing. *)
Theorem splitOnboardingEntries_join_roundtrip :
  (forall sepRun pad toks,
      separatorRun sepRun -> blank pad -> separatorFree pad ->
      Forall (fun t => t <> [] /\ trimmed t /\ separatorFree t) toks ->
      splitOnboardingEntries (JS.join (sepRun ++ pad) toks) = toks)
  /\ (forall raw,
         splitOnboardingEntries (JS.join (lit ",") (splitOnboardingEntries raw))
         = splitOnboardingEntries raw).
Proof.
split; [apply splitOnboardingEntries_join|].
intros raw. apply (splitOnboardingEntries_join (lit ",") []).
- split; [done|by repeat constructor].
- constructor.
- constructor.
- apply splitOnboardingEntries_wf.
Qed.

(** X7. Splitting distributes over a separator: the tokens of two texts
    put together with a separator between them are the tokens of the
    first followed by the tokens of the second. *)
Theorem splitOnboardingEntries_app (a b : jsstring) (c : N) :
  isEntrySeparator c = true ->
  splitOnboardingEntries (a ++ c :: b)
  = splitOnboardingEntries a ++ splitOnboardingEntries b.
Proof.
intros Hc.
destruct (interleave_exists a) as (a0 & ra & -> & Ha0 & Hra).
destruct (interleave_exists b) as (b0 & rb & -> & Hb0 & Hrb).
change (c :: interleave b0 rb) with ([c] ++ interleave b0 rb).
rewrite <- interleave_app, !splitOnboardingEntries_interleave; try done.
- rewrite fmap_app, fmap_cons. simpl.
  change (a0 :: ra.*2 ++ b0 :: rb.*2) with ((a0 :: ra.*2) ++ b0 :: rb.*2).
  apply tokens_app.
- apply Forall_app. split; [done|]. constructor; [|done]. simpl.
  split; [|done]. split; [done|by repeat constructor].
Qed.

(** X8. [splitOnboardingEntries] answers no token exactly for the texts
    made of separators and white space only. *)
Theorem splitOnboardingEntries_nil_iff (raw : jsstring) :
  splitOnboardingEntries raw = []
  <-> Forall (fun c => isEntrySeparator c = true \/ JS.isWhiteSpace c = true) raw.
Proof.
destruct (interleave_exists raw) as (seg0 & rest & -> & Hseg0 & Hrest).
rewrite splitOnboardingEntries_interleave, tokens_nil_iff, Forall_interleave by done.
rewrite Forall_cons, Forall_fmap.
assert (Hseg : forall seg, separatorFree seg ->
  blank seg
  <-> Forall (fun c => isEntrySeparator c = true \/ JS.isWhiteSpace c = true) seg).
{ intros seg Hfree. unfold blank. rewrite !Forall_forall. split.
  - intros Hb c Hin. right. by apply Hb.
  - intros Hb c Hin. destruct (Hb c Hin) as [Hsep|Hws]; [|done].
    unfold separatorFree in Hfree. rewrite Forall_forall in Hfree.
    rewrite (Hfree c Hin) in Hsep. done. }
rewrite (Hseg seg0 Hseg0). apply and_iff_compat_l.
rewrite !Forall_forall. split.
- intros Hall [sepRun seg] Hin. simpl.
  rewrite Forall_forall in Hrest. destruct (Hrest _ Hin) as [[_ Hrun] Hfree]. simpl in *.
  split.
  + eapply Forall_impl; [exact Hrun|]. intros c Hc. by left.
  + apply Hseg; [done|]. by apply (Hall (sepRun, seg)).
- intros Hall [sepRun seg] Hin. simpl.
  rewrite Forall_forall in Hrest. destruct (Hrest _ Hin) as [_ Hfree]. simpl in *.
  apply Hseg; [done|]. by apply (Hall (sepRun, seg) Hin).
Qed.

End MoreSplit.

(** ** Further properties of the prompt and of account resolution *)

Section MorePrompt.

Context `{Number}.

Lemma truthy_trim_blank (s : jsstring) : JS.truthy (JS.trim s) = false <-> blank s.
Proof.
rewrite <- trim_nil_iff. destruct (JS.trim s); simpl; split; done.
Qed.

(** X9. The prompt's [validate] answers ["Required"] for a missing value
    and for a text of white space only, and accepts every other text.  A
    text of separators and white space that holds a comma or a semicolon
    is therefore accepted although [splitOnboardingEntries] finds no token
    in it. *)
Theorem prompt_validate_blank (params : Params) :
  (forall value,
      TextOptions.validate (textOptions params) value = None
      <-> exists s, value = Some s /\ ~ blank s)
  /\ (forall value,
         TextOptions.validate (textOptions params) value <> None ->
         TextOptions.validate (textOptions params) value = Some (lit "Required"))
  /\ (forall raw,
         Forall (fun c => isEntrySeparator c = true \/ JS.isWhiteSpace c = true) raw ->
         ~ blank raw ->
         TextOptions.validate (textOptions params) (Some raw) = None
         /\ splitOnboardingEntries raw = []).
Proof.
assert (Hval : forall value,
  TextOptions.validate (textOptions params) value = None
  <-> exists s, value = Some s /\ ~ blank s).
{ intros value. simpl. destruct (JS.truthy (JS.trim (default [] value))) eqn:Ht.
  - split; [intros _|done]. destruct value as [s|]; [|done].
    exists s. split; [done|]. intros Hb%truthy_trim_blank. simpl in Ht. congruence.
  - split; [done|]. intros (s & -> & Hnb). simpl in Ht.
    by apply truthy_trim_blank in Ht. }
split_and!.
- apply Hval.
- intros value. simpl. by destruct (JS.truthy (JS.trim (default [] value))).
- intros raw Hraw Hnb. split.
  + apply Hval. eauto.
  + destruct (interleave_exists raw) as (seg0 & rest & -> & Hseg0 & Hrest).
    rewrite splitOnboardingEntries_interleave by done.
    apply tokens_nil_iff.
    apply Forall_interleave in Hraw as [Hraw0 Hraws].
    assert (Hseg : forall seg, separatorFree seg ->
      Forall (fun c => isEntrySeparator c = true \/ JS.isWhiteSpace c = true) seg ->
      blank seg).
    { intros seg Hfree Hall. unfold blank, separatorFree in *.
      rewrite Forall_forall in *. intros c Hin.
      destruct (Hall c Hin) as [Hsep|Hws]; [|done].
      rewrite (Hfree c Hin) in Hsep. done. }
    constructor; [by apply Hseg|]. apply Forall_fmap.
    rewrite Forall_forall in *. intros [sepRun seg] Hin. simpl.
    apply Hseg; [apply (Hrest _ Hin)|apply (Hraws _ Hin)].
Qed.

End MorePrompt.

Section MoreAccounts.

Context {Cfg : Type} (normalizeAccountId : jsstring -> jsstring).
Implicit Types params : ConfigureParams.t Cfg.

(** X10. With prompting permitted and the override missing or blank,
    [resolveAccountIdForConfigure] is the account prompt and nothing
    else: it is asked once, with the default identifier both as the
    current and as the default one and with the label, snapshot and
    listing function it was given, and its answer is returned as it is,
    the normalizer not being applied. *)
Theorem resolveAccountIdForConfigure_prompts params :
  ConfigureParams.shouldPromptAccountIds params = true ->
  (forall o, ConfigureParams.accountOverride params = Some o -> blank o) ->
  resolveAccountIdForConfigure normalizeAccountId params
  = await (promptAccountIdSdk
      {| PromptAccountIdParams.cfg := ConfigureParams.cfg params;
         PromptAccountIdParams.label := ConfigureParams.label params;
         PromptAccountIdParams.currentId := ConfigureParams.defaultAccountId params;
         PromptAccountIdParams.listAccountIds := ConfigureParams.listAccountIds params;
         PromptAccountIdParams.defaultAccountId :=
           ConfigureParams.defaultAccountId params |})
  /\ forall answer script n,
      run accountPrompt (resolveAccountIdForConfigure normalizeAccountId params)
          (answer :: script, n)
      = Returned answer (script, S n).
Proof.
intros Hprompt Hblank.
assert (Heq : resolveAccountIdForConfigure normalizeAccountId params
  = await (promptAccountIdSdk
      {| PromptAccountIdParams.cfg := ConfigureParams.cfg params;
         PromptAccountIdParams.label := ConfigureParams.label params;
         PromptAccountIdParams.currentId := ConfigureParams.defaultAccountId params;
         PromptAccountIdParams.listAccountIds := ConfigureParams.listAccountIds params;
         PromptAccountIdParams.defaultAccountId :=
           ConfigureParams.defaultAccountId params |})).
{ unfold resolveAccountIdForConfigure, promptAccountId. rewrite Hprompt.
  destruct (ConfigureParams.accountOverride params) as [o|]; [|done]. simpl.
  by rewrite (proj2 (truthy_trim_blank o) (Hblank o eq_refl)). }
split; [exact Heq|]. intros answer script n. by rewrite Heq.
Qed.

(** X11. With prompting not permitted the interactive form asks nothing
    and returns what the non-interactive form returns for a normalizer
    that trims first: the trimmed and normalized override when it is not
    blank, the default otherwise. *)
Theorem resolveAccountIdForConfigure_without_prompt params :
  ConfigureParams.shouldPromptAccountIds params = false ->
  resolveAccountIdForConfigure normalizeAccountId params
  = Ret (resolveOnboardingAccountId (fun s => normalizeAccountId (JS.trim s))
           (ConfigureParams.accountOverride params)
           (ConfigureParams.defaultAccountId params)).
Proof.
intros Hprompt. unfold resolveAccountIdForConfigure, resolveOnboardingAccountId.
rewrite Hprompt. by destruct (ConfigureParams.accountOverride params).
Qed.

End MoreAccounts.

(** ** How the patchers compose *)

Section MorePatchers.

Context `{Number} {V : Type}.
Implicit Types cfg : OpenClawConfig V.
Implicit Types c : ChannelConfig V.
Implicit Types channel accountId : jsstring.

Lemma spreadChannel_allowFrom (ch : option (ChannelConfig V)) :
  channel_allowFrom (spreadChannel ch) = allowFromOf ch.
Proof. by destruct ch. Qed.

Lemma spreadChannel_accounts (ch : option (ChannelConfig V)) :
  channel_accounts (spreadChannel ch) = accountsOf ch.
Proof. by destruct ch. Qed.

Lemma spreadChannel_accountOf (ch : option (ChannelConfig V)) accountId :
  accountOf (Some (spreadChannel ch)) accountId = accountOf ch accountId.
Proof. by destruct ch. Qed.

Lemma spreadMap_lookup {A} (o : option (gmap jsstring A)) (k : jsstring) :
  spreadMap o !! k = o ≫= fun m => m !! k.
Proof. destruct o; [done|apply lookup_empty]. Qed.

Lemma setAccountAllowFromForChannel_patch DEFAULT_ACCOUNT_ID cfg channel accountId allowFrom :
  setAccountAllowFromForChannel DEFAULT_ACCOUNT_ID cfg channel accountId allowFrom
  = patchChannel cfg channel (writeAllowFrom DEFAULT_ACCOUNT_ID accountId allowFrom).
Proof.
unfold setAccountAllowFromForChannel, patchChannel, writeAllowFrom.
case_bool_decide; [done|].
by rewrite spreadChannel_accounts, spreadChannel_accountOf.
Qed.

Lemma setChannelDmPolicyWithAllowFrom_patch cfg channel dmPolicy :
  setChannelDmPolicyWithAllowFrom cfg channel dmPolicy
  = patchChannel cfg channel (writeDmPolicy dmPolicy).
Proof.
unfold setChannelDmPolicyWithAllowFrom, patchChannel, writeDmPolicy.
rewrite spreadChannel_allowFrom. by case_bool_decide.
Qed.

Lemma channelOf_patch_eq cfg channel f :
  channelOf (patchChannel cfg channel f) channel
  = Some (f (spreadChannel (channelOf cfg channel))).
Proof. unfold patchChannel. apply channelOf_insert_eq. Qed.

Lemma channelOf_patch_ne cfg channel other f :
  other <> channel -> channelOf (patchChannel cfg channel f) other = channelOf cfg other.
Proof. intros Hne. unfold patchChannel. by apply channelOf_insert_ne. Qed.

Lemma patchChannel_twice cfg channel f g :
  patchChannel (patchChannel cfg channel f) channel g
  = patchChannel cfg channel (fun c => g (f c)).
Proof.
unfold patchChannel at 1. rewrite channelOf_patch_eq. simpl.
unfold patchChannel. by rewrite insert_insert_eq.
Qed.

Lemma patchChannel_commute cfg channel channel' f g :
  channel <> channel' ->
  patchChannel (patchChannel cfg channel f) channel' g
  = patchChannel (patchChannel cfg channel' g) channel f.
Proof.
intros Hne. unfold patchChannel at 1 3.
rewrite !channelOf_patch_ne by done. simpl.
unfold patchChannel. simpl. f_equal. f_equal. by apply insert_insert_ne.
Qed.

Lemma patchChannel_ext cfg channel f g :
  f (spreadChannel (channelOf cfg channel)) = g (spreadChannel (channelOf cfg channel)) ->
  patchChannel cfg channel f = patchChannel cfg channel g.
Proof. intros Heq. unfold patchChannel. by rewrite Heq. Qed.

Lemma writeDmPolicy_twice dmPolicy c :
  writeDmPolicy dmPolicy (writeDmPolicy dmPolicy c) = writeDmPolicy dmPolicy c.
Proof.
unfold writeDmPolicy. simpl. case_bool_decide; [|done].
by rewrite addWildcard_twice.
Qed.

Lemma writeDmPolicy_over p q c :
  p <> OPEN -> writeDmPolicy q (writeDmPolicy p c) = writeDmPolicy q c.
Proof.
intros Hp. unfold writeDmPolicy. simpl.
by rewrite (bool_decide_eq_false_2 (p = OPEN)).
Qed.

Lemma writeAllowFrom_over d accountId l1 l2 c :
  writeAllowFrom d accountId l2 (writeAllowFrom d accountId l1 c)
  = writeAllowFrom d accountId l2 c.
Proof.
unfold writeAllowFrom. case_bool_decide; [done|]. simpl. f_equal.
unfold accountOf, accountsOf. simpl.
by rewrite lookup_insert_eq, insert_insert_eq.
Qed.

Lemma writeAllowFrom_commute d a a' l l' c :
  a <> a' ->
  writeAllowFrom d a' l' (writeAllowFrom d a l c)
  = writeAllowFrom d a l (writeAllowFrom d a' l' c).
Proof.
intros Hne. unfold writeAllowFrom.
case_bool_decide as Ha; case_bool_decide as Ha'; simpl; try done.
- congruence.
- f_equal. unfold accountOf, accountsOf. simpl.
  rewrite !lookup_insert_ne by done. rewrite !spreadMap_lookup.
  f_equal. by apply insert_insert_ne.
Qed.

Lemma writeDmPolicy_writeAllowFrom d a l p c :
  a <> d \/ p <> OPEN ->
  writeDmPolicy p (writeAllowFrom d a l c) = writeAllowFrom d a l (writeDmPolicy p c).
Proof.
intros Hcase. unfold writeDmPolicy, writeAllowFrom.
case_bool_decide as Ha; case_bool_decide as Hp; simpl; try done.
destruct Hcase; done.
Qed.

(** X12. Setting the same dm policy twice is setting it once, and a
    policy other than ["open"] leaves no trace once another policy is
    set after it. *)
Theorem setChannelDmPolicyWithAllowFrom_again cfg channel (p q : jsstring) :
  setChannelDmPolicyWithAllowFrom (setChannelDmPolicyWithAllowFrom cfg channel p) channel p
  = setChannelDmPolicyWithAllowFrom cfg channel p
  /\ (p <> OPEN ->
      setChannelDmPolicyWithAllowFrom (setChannelDmPolicyWithAllowFrom cfg channel p) channel q
      = setChannelDmPolicyWithAllowFrom cfg channel q).
Proof.
rewrite !setChannelDmPolicyWithAllowFrom_patch, !patchChannel_twice. split.
- apply patchChannel_ext, writeDmPolicy_twice.
- intros Hp. by apply patchChannel_ext, writeDmPolicy_over.
Qed.

(** X13. The last list written for an account is the one that stays: a
    second write to the same channel and account gives what it alone
    gives. *)
Theorem setAccountAllowFromForChannel_overwrite (DEFAULT_ACCOUNT_ID : jsstring)
        cfg channel accountId (l1 l2 : list jsstring) :
  setAccountAllowFromForChannel DEFAULT_ACCOUNT_ID
    (setAccountAllowFromForChannel DEFAULT_ACCOUNT_ID cfg channel accountId l1)
    channel accountId l2
  = setAccountAllowFromForChannel DEFAULT_ACCOUNT_ID cfg channel accountId l2.
Proof.
rewrite !setAccountAllowFromForChannel_patch, patchChannel_twice.
apply patchChannel_ext, writeAllowFrom_over.
Qed.

(** X14. Writes to different targets do not depend on their order: two
    writes commute when their channels differ or their accounts do. *)
Theorem setAccountAllowFromForChannel_commute (DEFAULT_ACCOUNT_ID : jsstring)
        cfg channel channel' accountId accountId' (l l' : list jsstring) :
  channel <> channel' \/ accountId <> accountId' ->
  setAccountAllowFromForChannel DEFAULT_ACCOUNT_ID
    (setAccountAllowFromForChannel DEFAULT_ACCOUNT_ID cfg channel accountId l)
    channel' accountId' l'
  = setAccountAllowFromForChannel DEFAULT_ACCOUNT_ID
      (setAccountAllowFromForChannel DEFAULT_ACCOUNT_ID cfg channel' accountId' l')
      channel accountId l.
Proof.
intros Hcase. rewrite !setAccountAllowFromForChannel_patch.
destruct (decide (channel = channel')) as [<-|Hch].
- destruct Hcase as [|Hacct]; [done|]. rewrite !patchChannel_twice.
  by apply patchChannel_ext, writeAllowFrom_commute.
- by apply patchChannel_commute.
Qed.

(** X15. Setting the dm policy and writing an account's list commute
    unless both touch the top-level allowFrom of one channel, that is
    unless the channel is the same, the account is the default one and
    the policy is ["open"]. *)
Theorem setChannelDmPolicy_setAccountAllowFrom_commute (DEFAULT_ACCOUNT_ID : jsstring)
        cfg channel channel' accountId (l : list jsstring) (p : jsstring) :
  channel <> channel' \/ accountId <> DEFAULT_ACCOUNT_ID \/ p <> OPEN ->
  setChannelDmPolicyWithAllowFrom
    (setAccountAllowFromForChannel DEFAULT_ACCOUNT_ID cfg channel accountId l) channel' p
  = setAccountAllowFromForChannel DEFAULT_ACCOUNT_ID
      (setChannelDmPolicyWithAllowFrom cfg channel' p) channel accountId l.
Proof.
intros Hcase.
rewrite !setAccountAllowFromForChannel_patch, !setChannelDmPolicyWithAllowFrom_patch.
destruct (decide (channel = channel')) as [<-|Hch].
- destruct Hcase as [|Hcase]; [done|]. rewrite !patchChannel_twice.
  by apply patchChannel_ext, writeDmPolicy_writeAllowFrom.
- by apply patchChannel_commute.
Qed.

(** X16. For the default account under ["open"] the order matters.  The
    policy set after the list gives the list with the wildcard added; the
    list written after the policy stays as it was given, so the channel
    is left with the policy ["open"] and an allowFrom that holds the
    wildcard only if the list did. *)
Theorem setAccountAllowFrom_after_open (DEFAULT_ACCOUNT_ID : jsstring)
        cfg channel (l : list jsstring) :
  (exists c,
      channelOf (setAccountAllowFromForChannel DEFAULT_ACCOUNT_ID
                   (setChannelDmPolicyWithAllowFrom cfg channel OPEN)
                   channel DEFAULT_ACCOUNT_ID l) channel = Some c
      /\ channel_dmPolicy c = Some OPEN
      /\ channel_allowFrom c = Some (Str <$> l))
  /\ (exists c,
         channelOf (setChannelDmPolicyWithAllowFrom
                      (setAccountAllowFromForChannel DEFAULT_ACCOUNT_ID cfg
                         channel DEFAULT_ACCOUNT_ID l)
                      channel OPEN) channel = Some c
         /\ channel_dmPolicy c = Some OPEN
         /\ channel_allowFrom c
            = Some (Str <$> addWildcardAllowFrom (Some (Str <$> l)))).
Proof.
rewrite !setAccountAllowFromForChannel_patch, !setChannelDmPolicyWithAllowFrom_patch.
rewrite !patchChannel_twice, !channelOf_patch_eq. split.
- eexists. split; [done|]. unfold writeAllowFrom.
  by rewrite bool_decide_eq_true_2.
- eexists. split; [done|]. unfold writeAllowFrom, writeDmPolicy.
  by rewrite !bool_decide_eq_true_2.
Qed.

(** X17. On a snapshot that lacks the channel (or has no channels at
    all) the patchers create it with nothing but what they write: the
    policy, with [["*"]] as allowFrom under ["open"] and no allowFrom
    otherwise; the list at the top level for the default account, or
    under an accounts map that holds the one account, for another. *)
Theorem patchers_on_missing_channel (DEFAULT_ACCOUNT_ID : jsstring)
        cfg channel accountId (l : list jsstring) (p : jsstring) :
  channelOf cfg channel = None ->
  channelOf (setChannelDmPolicyWithAllowFrom cfg channel p) channel
  = Some {| channel_allowFrom :=
              if bool_decide (p = OPEN) then Some [Str WILDCARD] else None;
            channel_dmPolicy := Some p;
            channel_accounts := None;
            channel_rest := ∅ |}
  /\ channelOf (setAccountAllowFromForChannel DEFAULT_ACCOUNT_ID cfg channel accountId l)
       channel
     = Some (if bool_decide (accountId = DEFAULT_ACCOUNT_ID)
             then {| channel_allowFrom := Some (Str <$> l);
                     channel_dmPolicy := None;
                     channel_accounts := None;
                     channel_rest := ∅ |}
             else {| channel_allowFrom := None;
                     channel_dmPolicy := None;
                     channel_accounts :=
                       Some {[ accountId :=
                                 {| account_allowFrom := Some (Str <$> l);
                                    account_rest := ∅ |} ]};
                     channel_rest := ∅ |}).
Proof.
intros Hnone.
rewrite setAccountAllowFromForChannel_patch, setChannelDmPolicyWithAllowFrom_patch.
rewrite !channelOf_patch_eq, Hnone. split.
- unfold writeDmPolicy. simpl. by case_bool_decide.
- unfold writeAllowFrom. simpl. by case_bool_decide.
Qed.

End MorePatchers.

(** ** Further properties of the resolution loop *)

Section MoreProtocol.

Context `{Number} {R : Type}.
Implicit Types params : Params.
Implicit Types w : World R.

Lemma resolveCallsOf_localRetry params :
  resolveCallsOf (localRetryCalls (R := R) params) = [].
Proof. done. Qed.

(** X18. In local mode the directory is never called: however a run ends,
    returning or waiting for the user, the directory's answers are all
    still unread and the log holds no directory call that it did not hold
    before. *)
Theorem local_mode_never_resolves params :
  localMode params ->
  forall w,
    match promptResolvedAllowFrom params w with
    | Returned _ w' | Awaiting w' =>
        resolutions w' = resolutions w
        /\ resolveCallsOf (calls w') = resolveCallsOf (calls w)
    | OutOfFuel => False
    end.
Proof.
intros Hlocal w. remember (texts w) as script eqn:Hs. revert w Hs.
induction script as [|e script IH]; intros w Hs; symmetry in Hs.
- by rewrite (loop_awaiting _ _ _ (run_round_idle params w Hs)).
- destruct (decide (parsesAll params (parseInputs params e))) as [Hok|Hno].
  + rewrite (loop_return _ _ _ _ (run_round_local_accept params w e _ Hlocal Hs Hok)).
    simpl. split; [done|]. rewrite resolveCallsOf_app. simpl. apply app_nil_r.
  + pose proof (run_round_local_retry params w e _ Hlocal Hs Hno) as Hrun.
    rewrite (loop_retry _ _ _ _ _ _ Hs Hrun).
    specialize (IH (after w script (resolutions w) (localRetryCalls params)) eq_refl).
    destruct (promptResolvedAllowFrom params
                (after w script (resolutions w) (localRetryCalls params)))
      as [r w'|w'|]; [| |done].
    * destruct IH as [-> ->]. simpl. split; [done|].
      rewrite resolveCallsOf_app. simpl. apply app_nil_r.
    * destruct IH as [-> ->]. simpl. split; [done|].
      rewrite resolveCallsOf_app. simpl. apply app_nil_r.
Qed.

(** X19. In directory mode the local identifier parser and the
    invalid-without-token notice play no part: a run with any other parser
    and notice is the same run. *)
Theorem directory_mode_ignores_parseId params tok
        (parseId' : jsstring -> option jsstring) (note' : jsstring) :
  directoryMode params tok ->
  forall w,
    promptResolvedAllowFrom params w
    = promptResolvedAllowFrom
        {| existing := existing params;
           token := token params;
           message := message params;
           placeholder := placeholder params;
           label := label params;
           parseInputs := parseInputs params;
           parseId := parseId';
           invalidWithoutTokenNote := note' |} w.
Proof.
intros [Htok Hne] w. unfold promptResolvedAllowFrom. f_equal.
destruct params as [ex t msg ph lbl pin pid inv]. simpl in *. subst t.
destruct tok as [|c tok]; [done|]. reflexivity.
Qed.

Lemma directoryRetry_resolveCalls params tok (failed : list jsstring) :
  forall failedRes : list (Settled R (list AllowFromResolution.t)),
  length failed = length failedRes ->
  resolveCallsOf (concat (zip_with (directoryRetryCalls params tok) failed failedRes))
  = (fun e => (tok, parseInputs params e)) <$> failed.
Proof.
induction failed as [|e failed IH]; intros [|s failedRes] Hlen; try done.
simpl. f_equal. apply IH. simpl in Hlen. lia.
Qed.

Lemma directoryRetry_notes params tok (failed : list jsstring) :
  forall failedRes : list (Settled R (list AllowFromResolution.t)),
  length failed = length failedRes ->
  notesOf (concat (zip_with (directoryRetryCalls params tok) failed failedRes))
  = (fun s => (failureNotice s, label params)) <$> failedRes.
Proof.
induction failed as [|e failed IH]; intros [|s failedRes] Hlen; try done.
simpl. f_equal. apply IH. simpl in Hlen. lia.
Qed.

(** X20. Directory mode, on return.  The directory was called once for
    every line the user typed, in order, each time with the token and all
    the candidates of that line; and one notice was shown for every
    directory call but the last, in order, each under the label: the
    generic one for a rejected call, the list of the inputs that could not
    be resolved for a fulfilled one. *)
Theorem directory_mode_trace params tok :
  directoryMode params tok ->
  forall w r w',
    promptResolvedAllowFrom params w = Returned r w' ->
    exists typed failedRes,
      texts w = typed ++ texts w'
      /\ failedRes `prefix_of` resolutions w
      /\ length typed = S (length failedRes)
      /\ Forall failedResolution failedRes
      /\ resolveCallsOf (calls w')
         = resolveCallsOf (calls w)
           ++ ((fun e => (tok, parseInputs params e)) <$> typed)
      /\ notesOf (calls w')
         = notesOf (calls w)
           ++ ((fun s => (failureNotice s, label params)) <$> failedRes).
Proof.
intros Hmode w r w' Hret.
destruct (directory_loop_sound params tok w r w' Hmode Hret)
  as (failed & failedRes & entry & ts & results & rs
      & Ht & Hrs & Hlen & Hfailed & _ & _ & ->).
exists (failed ++ [entry]), failedRes. simpl. split_and!.
- by rewrite Ht, <- app_assoc.
- rewrite Hrs. by eexists.
- rewrite length_app. simpl. lia.
- done.
- rewrite !resolveCallsOf_app, directoryRetry_resolveCalls by done.
  by rewrite fmap_app.
- rewrite !notesOf_app, directoryRetry_notes by done. simpl.
  by rewrite app_nil_r.
Qed.

Lemma merge_prefix (current : option (list Entry)) (additions : list Entry) :
  mergeAllowFromEntries current [] `prefix_of` mergeAllowFromEntries current additions.
Proof. rewrite (merge_existing_first current additions). by eexists. Qed.

(** X21. Whatever the mode, a list the loop returns is an allowlist that
    extends the existing one: it has no duplicates, holds only trimmed,
    non-empty texts, and begins with the existing entries as the merge
    alone leaves them, so no existing value is ever lost. *)
Theorem loop_result_extends_existing params :
  forall w r w',
    promptResolvedAllowFrom (R := R) params w = Returned r w' ->
    NoDup r
    /\ Forall (fun x => x <> [] /\ trimmed x) r
    /\ mergeAllowFromEntries (Some (existing params)) [] `prefix_of` r
    /\ (forall x, x ∈ trimmedEntries (existing params) -> x ∈ r).
Proof.
intros w r w' Hret.
assert (Hr : exists additions,
  r = mergeAllowFromEntries (Some (existing params)) additions).
{ destruct (mode_cases params) as [Hlocal|[tok Hmode]].
  - destruct (local_loop_sound params w r w' Hlocal Hret)
      as (_ & entry & _ & _ & _ & _ & -> & _). eauto.
  - destruct (directory_loop_sound params tok w r w' Hmode Hret)
      as (_ & _ & _ & _ & results & _ & _ & _ & _ & _ & _ & -> & _). eauto. }
destruct Hr as [additions ->]. split_and!.
- apply merge_NoDup.
- apply merge_wf.
- apply merge_prefix.
- intros x [Hne (v & Hv & ->)]%trimmedEntries_elem. apply merge_elem.
  split; [done|]. exists v. split; [|done]. apply elem_of_app. by left.
Qed.

Lemma merge_blank_additions (current : option (list Entry)) (ids : list jsstring) :
  Forall blank ids ->
  mergeAllowFromEntries current (Str <$> ids) = mergeAllowFromEntries current [].
Proof.
intros Hall. apply merge_present, Forall_fmap.
eapply Forall_impl; [exact Hall|]. intros i Hi. left. by apply trim_nil_iff.
Qed.

(** X22. An identifier of white space only passes the checks of a round
    and is then dropped by the merge.  In directory mode results that are
    resolved with such identifiers make the round return the existing
    allowlist merged with nothing, and so does, in local mode, a parser
    that answers such identifiers for every candidate. *)
Theorem blank_identifiers_vanish params :
  (forall tok,
      directoryMode params tok ->
      forall (w : World R) entry ts results rs,
        texts w = entry :: ts ->
        resolutions w = Fulfilled results :: rs ->
        Forall (fun res => AllowFromResolution.resolved res = true
                           /\ exists i, AllowFromResolution.id res = Some i
                                        /\ i <> [] /\ blank i) results ->
        promptResolvedAllowFrom params w
        = Returned (mergeAllowFromEntries (Some (existing params)) [])
            (after w ts rs (directoryReturnCalls params tok entry)))
  /\ (localMode params ->
      forall (w : World R) entry ts,
        texts w = entry :: ts ->
        Forall (fun part => exists i, parseId params part = Some i
                                      /\ i <> [] /\ blank i)
               (parseInputs params entry) ->
        promptResolvedAllowFrom params w
        = Returned (mergeAllowFromEntries (Some (existing params)) [])
            (after w ts (resolutions w) (localReturnCalls params))).
Proof.
split.
- intros tok Hmode w entry ts results rs Ht Hr Hall.
  rewrite <- (merge_blank_additions _ (idAsString <$> results)).
  + apply loop_return. apply run_round_resolved; [done|done|done|].
    apply unacceptable_nil. eapply Forall_impl; [exact Hall|].
    intros res (Hres & i & Hid & Hne & _). unfold acceptable.
    rewrite Hres, Hid. simpl. by apply bool_decide_eq_true_2.
  + apply Forall_fmap. eapply Forall_impl; [exact Hall|].
    intros res (_ & i & Hid & _ & Hb). unfold idAsString. simpl. by rewrite Hid.
- intros Hlocal w entry ts Ht Hall.
  rewrite <- (merge_blank_additions _ (parsedIds params (parseInputs params entry))).
  + apply loop_return. apply run_round_local_accept; [done|done|].
    eapply Forall_impl; [exact Hall|].
    intros part (i & Hi & Hne & _). rewrite Hi. simpl. by destruct i.
  + unfold parsedIds. apply Forall_fmap. eapply Forall_impl; [exact Hall|].
    intros part (i & Hi & _ & Hb). simpl. by rewrite Hi.
Qed.

End MoreProtocol.

(** ** The further properties at example inputs *)

Lemma addWildcardAllowFrom_merge_witness :
  addWildcardAllowFrom (Some mixedExisting)
  = mergeAllowFromEntries (Some mixedExisting) [Str WILDCARD].
Proof.
apply (proj2 (addWildcardAllowFrom_merge (Some mixedExisting))).
vm_compute. repeat constructor.
- intros Hin. apply list_elem_of_singleton in Hin. discriminate.
- apply not_elem_of_nil.
Defined.

Lemma splitOnboardingEntries_join_roundtrip_witness :
  splitOnboardingEntries (JS.join (lit ", ") [lit "a"; lit "b c"]) = [lit "a"; lit "b c"].
Proof.
apply (proj1 splitOnboardingEntries_join_roundtrip (lit ",") (lit " ")).
- split; [discriminate|by repeat constructor].
- by repeat constructor.
- by repeat constructor.
- repeat first [discriminate | split | constructor | by intros c [= <-]].
Defined.

Lemma splitOnboardingEntries_app_witness :
  splitOnboardingEntries (lit "a, b" ++ 0x3B :: lit " c")
  = splitOnboardingEntries (lit "a, b") ++ splitOnboardingEntries (lit " c").
Proof. apply splitOnboardingEntries_app. reflexivity. Defined.

Lemma prompt_validate_blank_witness :
  TextOptions.validate (textOptions localExample) (Some (lit ", ;")) = None
  /\ splitOnboardingEntries (lit ", ;") = [].
Proof.
destruct (prompt_validate_blank localExample) as (_ & _ & Hgap).
apply Hgap.
- repeat first [constructor; [first [by left | by right]|] | constructor].
- intros Hb. apply Forall_cons in Hb as [Hc _]. discriminate.
Defined.

Lemma resolveAccountIdForConfigure_prompts_witness :
  run accountPrompt
    (resolveAccountIdForConfigure dashedLowerCase
       {| ConfigureParams.cfg := tt;
          ConfigureParams.label := lit "Signal";
          ConfigureParams.accountOverride := Some (lit "   ");
          ConfigureParams.shouldPromptAccountIds := true;
          ConfigureParams.listAccountIds := fun _ => [lit "default"; lit "prompted-id"];
          ConfigureParams.defaultAccountId := lit "fallback" |})
    ([lit "prompted-id"], 0%nat)
  = Returned (lit "prompted-id") ([], 1%nat).
Proof.
apply (resolveAccountIdForConfigure_prompts dashedLowerCase
         {| ConfigureParams.cfg := tt;
            ConfigureParams.label := lit "Signal";
            ConfigureParams.accountOverride := Some (lit "   ");
            ConfigureParams.shouldPromptAccountIds := true;
            ConfigureParams.listAccountIds := fun _ => [lit "default"; lit "prompted-id"];
            ConfigureParams.defaultAccountId := lit "fallback" |}).
- reflexivity.
- intros o [= <-]. by repeat constructor.
Defined.

Lemma resolveAccountIdForConfigure_without_prompt_witness :
  resolveAccountIdForConfigure dashedLowerCase
    {| ConfigureParams.cfg := tt;
       ConfigureParams.label := lit "Signal";
       ConfigureParams.accountOverride := Some (lit " Team Primary ");
       ConfigureParams.shouldPromptAccountIds := false;
       ConfigureParams.listAccountIds := fun _ => [lit "default"];
       ConfigureParams.defaultAccountId := lit "fallback" |}
  = Ret (lit "team-primary").
Proof.
rewrite resolveAccountIdForConfigure_without_prompt; reflexivity.
Defined.

Lemma setChannelDmPolicyWithAllowFrom_again_witness :
  setChannelDmPolicyWithAllowFrom
    (setChannelDmPolicyWithAllowFrom signalExample (lit "signal") (lit "pairing"))
    (lit "signal") (lit "open")
  = setChannelDmPolicyWithAllowFrom signalExample (lit "signal") (lit "open").
Proof.
apply (proj2 (setChannelDmPolicyWithAllowFrom_again signalExample (lit "signal")
                (lit "pairing") (lit "open"))).
discriminate.
Defined.

Lemma setAccountAllowFromForChannel_commute_witness :
  setAccountAllowFromForChannel (lit "default")
    (setAccountAllowFromForChannel (lit "default") signalExample
       (lit "signal") (lit "alt") [lit "a"])
    (lit "signal") (lit "default") [lit "b"]
  = setAccountAllowFromForChannel (lit "default")
      (setAccountAllowFromForChannel (lit "default") signalExample
         (lit "signal") (lit "default") [lit "b"])
      (lit "signal") (lit "alt") [lit "a"].
Proof. apply setAccountAllowFromForChannel_commute. right. discriminate. Defined.

Lemma setChannelDmPolicy_setAccountAllowFrom_commute_witness :
  setChannelDmPolicyWithAllowFrom
    (setAccountAllowFromForChannel (lit "default") signalExample
       (lit "signal") (lit "alt") [lit "a"])
    (lit "signal") (lit "open")
  = setAccountAllowFromForChannel (lit "default")
      (setChannelDmPolicyWithAllowFrom signalExample (lit "signal") (lit "open"))
      (lit "signal") (lit "alt") [lit "a"].
Proof.
apply setChannelDmPolicy_setAccountAllowFrom_commute. right. left. discriminate.
Defined.

Lemma patchers_on_missing_channel_witness :
  channelOf (setChannelDmPolicyWithAllowFrom signalExample (lit "imessage") (lit "open"))
    (lit "imessage")
  = Some {| channel_allowFrom := Some [Str WILDCARD];
            channel_dmPolicy := Some (lit "open");
            channel_accounts := None;
            channel_rest := ∅ |}
  /\ channelOf (setAccountAllowFromForChannel (lit "default") signalExample
                 (lit "imessage") (lit "work") [lit "+1555"]) (lit "imessage")
     = Some {| channel_allowFrom := None;
               channel_dmPolicy := None;
               channel_accounts :=
                 Some {[ lit "work" :=
                           {| account_allowFrom := Some [Str (lit "+1555")];
                              account_rest := ∅ |} ]};
               channel_rest := ∅ |}.
Proof.
apply (patchers_on_missing_channel (lit "default") signalExample (lit "imessage")
         (lit "work") [lit "+1555"] (lit "open")).
reflexivity.
Defined.

Lemma local_mode_never_resolves_witness :
  match promptResolvedAllowFrom localExample
          (scripted ["@alice"; "bob"] [Fulfilled [resolution "bob" true (Some "U1")]]) with
  | Returned _ w' | Awaiting w' =>
      resolutions w' = [Fulfilled [resolution "bob" true (Some "U1")]]
      /\ resolveCallsOf (calls w') = []
  | OutOfFuel => False
  end.
Proof.
exact (local_mode_never_resolves (R := string) localExample localExample_mode
         (scripted ["@alice"; "bob"] [Fulfilled [resolution "bob" true (Some "U1")]])).
Defined.

Lemma directory_mode_ignores_parseId_witness :
  promptResolvedAllowFrom directoryExample
    (scripted ["bob"] [Fulfilled [resolution "bob" true (Some "U123")]])
  = promptResolvedAllowFrom (H := IntegerNumber)
      {| existing := [];
         token := Some (lit "xoxb-test");
         message := lit "msg";
         placeholder := lit "placeholder";
         label := lit "allowlist";
         parseInputs := splitComma;
         parseId := digitsOnly;
         invalidWithoutTokenNote := lit "digits only" |}
      (scripted ["bob"] [Fulfilled [resolution "bob" true (Some "U123")]]).
Proof.
exact (directory_mode_ignores_parseId (R := string) directoryExample (lit "xoxb-test")
         digitsOnly (lit "digits only") directoryExample_mode
         (scripted ["bob"] [Fulfilled [resolution "bob" true (Some "U123")]])).
Defined.

Lemma directory_mode_trace_witness :
  exists typed failedRes,
    texts rejectedThenResolved = typed ++ texts rejectedThenResolvedEnd
    /\ failedRes `prefix_of` resolutions rejectedThenResolved
    /\ length typed = S (length failedRes)
    /\ Forall failedResolution failedRes
    /\ resolveCallsOf (calls rejectedThenResolvedEnd)
       = resolveCallsOf (calls rejectedThenResolved)
         ++ ((fun e => (lit "xoxb-test", parseInputs directoryExample e)) <$> typed)
    /\ notesOf (calls rejectedThenResolvedEnd)
       = notesOf (calls rejectedThenResolved)
         ++ ((fun s => (failureNotice s, label directoryExample)) <$> failedRes).
Proof.
apply (directory_mode_trace directoryExample (lit "xoxb-test") directoryExample_mode
         rejectedThenResolved [lit "U234"] rejectedThenResolvedEnd).
reflexivity.
Defined.

Lemma loop_result_extends_existing_witness :
  NoDup [lit "111"; lit "123"]
  /\ Forall (fun x => x <> [] /\ trimmed x) [lit "111"; lit "123"]
  /\ mergeAllowFromEntries (Some (existing localExample)) [] `prefix_of` [lit "111"; lit "123"]
  /\ (forall x, x ∈ trimmedEntries (existing localExample) -> x ∈ [lit "111"; lit "123"]).
Proof.
apply (loop_result_extends_existing localExample unparseableThenParsed
         [lit "111"; lit "123"] unparseableThenParsedEnd).
reflexivity.
Defined.

Lemma blank_identifiers_vanish_witness :
  promptResolvedAllowFrom directoryExample
    (scripted ["bob"] [Fulfilled [resolution "bob" true (Some " ")]])
  = Returned []
      (after (scripted [] []) [] []
         [call (prompter_text (textOptions directoryExample));
          call (resolveEntries (lit "xoxb-test") [lit "bob"])]).
Proof.
destruct (blank_identifiers_vanish (R := string) directoryExample) as [Hdir _].
erewrite (Hdir _ directoryExample_mode); [|reflexivity|reflexivity|].
- reflexivity.
- constructor; [|constructor]. split; [reflexivity|].
  exists (lit " "). split; [reflexivity|]. split; [discriminate|by repeat constructor].
Defined.
